(** * GoSynth: catalog retrieval, reconciliation and device sync

    A shallow embedding of [main.go].  The program lists the songs of an
    Android device, fetches a paginated beatmap catalog (one goroutine per
    page), computes the beatmaps that the device lacks, and downloads and
    pushes each of them.

    Go [int] is modelled as [Z] (64-bit two's complement, wrap-around
    written out where the code does arithmetic), Go [string] as [string]
    (a sequence of bytes), slices as lists, [map[string]bool] as
    [gmap string bool] read with Go's zero-value default. *)

From stdpp Require Import gmap strings list fin_maps pretty.
From Stdlib Require Import ZArith Lia.

Local Open Scope string_scope.
Local Open Scope list_scope.
Local Open Scope Z_scope.

(** ** Data model *)

Record Device := mkDevice { Serial : string; Model : string }.

(** Beatmap represents a single beatmap entry in the API response. *)
Record Beatmap := mkBeatmap { Filename : string; DownloadUrl : string }.

(** BeatmapPage represents a single paginated response from the API. *)
Record BeatmapPage := mkPage {
  Data : list Beatmap;
  Count : Z;
  Total : Z;
  Page : Z;
  PageCount : Z
}.

Global Instance Beatmap_eq_dec : EqDecision Beatmap.
Proof. solve_decision. Defined.

Global Instance BeatmapPage_eq_dec : EqDecision BeatmapPage.
Proof. solve_decision. Defined.

Global Instance Device_eq_dec : EqDecision Device.
Proof. solve_decision. Defined.

Definition apiEndpoint : string := "https://synthriderz.com/api/beatmaps".

(** Go's [int] on the 64-bit targets this program is built for. *)
Definition int_max : Z := 2 ^ 63 - 1.
Definition int_min : Z := - 2 ^ 63.
Definition wrap_int (z : Z) : Z := (z + 2 ^ 63) mod 2 ^ 64 - 2 ^ 63.

(** The counter of a [sync.WaitGroup] is an [int32]. *)
Definition int32_max : Z := 2 ^ 31 - 1.
Definition wrap_int32 (z : Z) : Z := (z + 2 ^ 31) mod 2 ^ 32 - 2 ^ 31.

(** The size check of [make(chan BeatmapPage, size)] in the Go runtime of
    the amd64 targets the build script names: [makechan] panics with
    [size out of range] when the size is negative or when the buffer,
    [size] elements of 56 bytes (a slice header and four ints), does not
    fit under [maxAlloc - hchanSize].  The channel header takes 96 bytes
    (104 in runtimes whose header has a timer field; the largest size
    accepted is the same).  Running out of memory below that bound is a
    matter of the machine and is not modelled. *)
Definition sizeof_BeatmapPage : Z := 56.
Definition maxAlloc : Z := 2 ^ 48.
Definition hchanSize : Z := 96.

Definition makechan_ok (size : Z) : bool :=
  (0 <=? size) && (sizeof_BeatmapPage * size <=? maxAlloc - hchanSize).

(** Results of Go functions.  [log.Fatalf] ends the process at the call;
    a run-time panic (nil dereference, index out of range) unwinds it. *)
Inductive fatal :=
  | RequestFailed (page : Z) (err : string)
  | DecodeFailed (page : Z) (err : string).

Inductive outcome (A : Type) :=
  | Return (a : A)
  | LogFatal (f : fatal).
Arguments Return {A} a.
Arguments LogFatal {A} f.

(** ** Catalog client *)

(** The catalog endpoint as the client sees it: [client.Get] yields a
    response body or an error, [json.NewDecoder(..).Decode] a page or an
    error.  The answer to a request depends on the URL only. *)
Class CatalogServer := {
  client_Get : string → string + string;
  json_Decode : string → BeatmapPage + string
}.

(** [url := fmt.Sprintf("%s?page=%d", apiEndpoint, page)] *)
Definition pageURL (page : Z) : string :=
  apiEndpoint +:+ "?page=" +:+ pretty page.

Section Catalog.
Context `{CatalogServer}.

(** fetchPage performs an HTTP GET request for a specific page number and
    returns the decoded BeatmapPage. *)
Definition fetchPage (page : Z) : outcome BeatmapPage :=
  let url := pageURL page in
  match client_Get url with
  | inr err => LogFatal (RequestFailed page err)
  | inl body =>
      match json_Decode body with
      | inr err => LogFatal (DecodeFailed page err)
      | inl apiResponse => Return apiResponse
      end
  end.

(** *** fetchAllPagesConcurrently

    The goroutines are interleaved by the Go scheduler, so the function is
    a transition system.  A spawned goroutine first calls [fetchPage(page)],
    then sends the page on [results], and then, as it returns, runs its
    deferred [wg.Done()]. *)
Inductive goroutine :=
  | AtFetch (page : Z)
  | AtSend (pg : BeatmapPage)
  | AtDone.

Record orch := mkOrch {
  pageNum : Z;                  (* loop variable of the main goroutine *)
  wg : Z;                       (* counter of the WaitGroup *)
  pool : list goroutine;        (* goroutines that have not finished *)
  results : list BeatmapPage    (* channel buffer, oldest first *)
}.

Inductive status :=
  | Running (s : orch)
  | Returned (allPages : list BeatmapPage)
  | Exited (f : fatal)
  | Panicked.

Inductive choice :=
  | MainThread
  | Go (i : nat).

(** [make(chan BeatmapPage, totalPages)] panics when the size is out of
    range. *)
Definition start (totalPages : Z) : status :=
  if makechan_ok totalPages
  then Running {| pageNum := 1; wg := 0; pool := []; results := [] |}
  else Panicked.

(** One scheduling step; [None] when the chosen goroutine does not exist
    or is blocked.  The main goroutine spawns while
    [pageNum <= totalPages]: [wg.Add(1)], which panics when the counter
    turns negative, and the [go] statement.  Afterwards [wg.Wait()] lets it
    pass once the counter is zero, it closes the channel and drains it in
    FIFO order.  A goroutine fetches, sends (blocked while the buffer is
    full), and calls [wg.Done()]. *)
Definition step (totalPages : Z) (c : choice) (s : orch) : option status :=
  match c with
  | MainThread =>
      if pageNum s <=? totalPages then
        let v := wrap_int32 (wg s + 1) in
        if v <? 0 then Some Panicked
        else
          Some (Running {| pageNum := wrap_int (pageNum s + 1);
                           wg := v;
                           pool := pool s ++ [AtFetch (pageNum s)];
                           results := results s |})
      else if wg s =? 0 then Some (Returned (results s))
      else None
  | Go i =>
      match pool s !! i with
      | None => None
      | Some (AtFetch page) =>
          match fetchPage page with
          | LogFatal f => Some (Exited f)
          | Return pg =>
              Some (Running {| pageNum := pageNum s;
                               wg := wg s;
                               pool := <[i := AtSend pg]> (pool s);
                               results := results s |})
          end
      | Some (AtSend pg) =>
          if Z.of_nat (length (results s)) <? totalPages then
            Some (Running {| pageNum := pageNum s;
                             wg := wg s;
                             pool := <[i := AtDone]> (pool s);
                             results := results s ++ [pg] |})
          else None
      | Some AtDone =>
          let v := wrap_int32 (wg s - 1) in
          if v <? 0 then Some Panicked
          else
            Some (Running {| pageNum := pageNum s;
                             wg := v;
                             pool := delete i (pool s);
                             results := results s |})
      end
  end.

(** Running under a given schedule; a choice that is not enabled is
    skipped. *)
Fixpoint run (totalPages : Z) (sched : list choice) (st : status) : status :=
  match sched, st with
  | c :: sched', Running s =>
      match step totalPages c s with
      | Some st' => run totalPages sched' st'
      | None => run totalPages sched' st
      end
  | _, _ => st
  end.

Inductive reaches (totalPages : Z) : status → status → Prop :=
  | reaches_here st : reaches totalPages st st
  | reaches_step c s st' st'' :
      step totalPages c s = Some st' →
      reaches totalPages st' st'' →
      reaches totalPages (Running s) st''.

(** [Q] holds at the end of every execution from [st], and every
    execution from [st] ends. *)
Inductive inevitably (totalPages : Z) (Q : status → Prop) : status → Prop :=
  | inev_now st : Q st → inevitably totalPages Q st
  | inev_later s :
      (∃ c st', step totalPages c s = Some st') →
      (∀ c st', step totalPages c s = Some st' → inevitably totalPages Q st') →
      inevitably totalPages Q (Running s).

(** What a call can return: the slice [allPages] of a finished execution. *)
Definition fetchAllPagesConcurrently (totalPages : Z)
    (allPages : list BeatmapPage) : Prop :=
  reaches totalPages (start totalPages) (Returned allPages).

End Catalog.

(** ** Device selection and sync: the operating system *)

Record Response := mkResp { StatusCode : Z; Status : string; Body : string }.

(** The calls the program makes, as functions on an abstract world [W].
    Go errors are [Some err] / [inr err]; [temp_path name] stands for
    [filepath.Join(os.TempDir(), name)]. *)
Class OS (W : Type) := {
  http_Get : string → W → (Response + string) * W;
  temp_path : string → string;
  os_Create : string → W → option string * W;
  io_Copy : string → string → W → option string * W;
  exec_CombinedOutput : list string → W → (string * option string) * W;
  os_Remove : string → W → option string * W;
  file_Close : string → W → W;
  body_Close : string → W → W;
  fmt_Scanf_d : W → option Z * W
}.

Inductive sync_error :=
  | FailedToDownload (filename err : string)
  | DownloadFailedStatus (filename status : string)
  | FailedToCreate (err : string)
  | FailedToWrite (err : string)
  | AdbPushFailed (err output : string).

Inductive select_error :=
  | NoDevicesFound
  | InvalidChoice.

(** Console output, one constructor per format string. *)
Inductive line :=
  | AvailableDevices
  | DeviceLine (n : Z) (serial model : string)
  | Prompt
  | Pushed (filename remoteDir : string)
  | WarnDelete (tmpPath err : string)
  | ErrorProcessing (filename : string) (e : sync_error).

Inductive syscall :=
  | Get (url : string)
  | Create (path : string)
  | Copy (path : string)
  | Exec (args : list string)
  | Remove (path : string)
  | CloseFile (path : string)
  | CloseBody (url : string)
  | Scanf.

Inductive event :=
  | Call (c : syscall)
  | Printed (l : line).

(** A value with a Go [error], or a run-time panic. *)
Inductive result (A E : Type) :=
  | Ok (a : A)
  | Err (e : E)
  | Panic.
Arguments Ok {A E} a.
Arguments Err {A E} e.
Arguments Panic {A E}.

(** Indexing a slice, [l[i]]: [None] stands for the index-out-of-range
    panic. *)
Definition slice_at {A} (l : list A) (i : Z) : option A :=
  if (i <? 0) || (Z.of_nat (length l) <=? i) then None else l !! Z.to_nat i.

Record St (W : Type) := mkSt { world : W; trace : list event }.
Arguments mkSt {W} world trace.
Arguments world {W} s.
Arguments trace {W} s.

(** State passing over the world and the trace of calls and output. *)
Definition M (W A : Type) : Type := St W → A * St W.

Definition ret {W A} (a : A) : M W A := λ st, (a, st).

Definition bind {W A B} (m : M W A) (k : A → M W B) : M W B :=
  λ st, let '(a, st') := m st in k a st'.

Declare Scope go_scope.
Delimit Scope go_scope with go.
Notation "x <- m ;; k" := (bind m (λ x, k))
  (at level 100, m at next level, right associativity) : go_scope.
Notation "m ;; k" := (bind m (λ _, k))
  (at level 100, right associativity) : go_scope.

(** [fullURL := "https://synthriderz.com" + b.DownloadUrl] *)
Definition fullURL (b : Beatmap) : string :=
  "https://synthriderz.com" +:+ DownloadUrl b.

(** [exec.Command("adb", "-s", serial, "push", tmpPath, remoteDir)] *)
Definition pushCommand (serial tmpPath remoteDir : string) : list string :=
  ["adb"; "-s"; serial; "push"; tmpPath; remoteDir].

Section Sync.
Context {W : Type} `{OS W}.

Definition emit (e : event) : M W unit :=
  λ st, (tt, {| world := world st; trace := trace st ++ [e] |}).

Definition print (l : line) : M W unit := emit (Printed l).

(** A call that returns a value. *)
Definition call {A} (c : syscall) (f : W → A * W) : M W A :=
  λ st, let '(a, w) := f (world st) in
        (a, {| world := w; trace := trace st ++ [Call c] |}).

(** A call for its effect only. *)
Definition call_ (c : syscall) (f : W → W) : M W unit :=
  call c (λ w, (tt, f w)).

Fixpoint printDevices (i : Z) (devices : list Device) : M W unit :=
  match devices with
  | [] => ret tt
  | device :: rest =>
      (print (DeviceLine (i + 1) (Serial device) (Model device)) ;;
       printDevices (i + 1) rest)%go
  end.

(** selectDevice lets the user choose a device from the list and returns
    the serial number. *)
Definition selectDevice (devices : list Device) : M W (result string select_error) :=
  if Z.of_nat (length devices) =? 0 then ret (Err NoDevicesFound)
  else
    (print AvailableDevices ;;
     printDevices 0 devices ;;
     print Prompt ;;
     r <- call Scanf fmt_Scanf_d ;;
     match r with
     | None => ret (Err InvalidChoice)
     | Some choice =>
         if (choice <? 1) || (Z.of_nat (length devices) <? choice)
         then ret (Err InvalidChoice)
         else
           match slice_at devices (choice - 1) with
           | Some d => ret (Ok (Serial d))
           | None => ret Panic
           end
     end)%go.

(** Steps 3 and 4 of [downloadAndPushBeatmap]: push and clean up.  [cmd]
    stays nil when [serial] is empty, and [cmd.CombinedOutput()] then
    dereferences it. *)
Definition pushAndCleanup (b : Beatmap) (serial remoteDir tmpPath : string)
    : M W (result unit sync_error) :=
  if decide (serial = "") then ret Panic
  else
    (r <- call (Exec (pushCommand serial tmpPath remoteDir))
               (exec_CombinedOutput (pushCommand serial tmpPath remoteDir)) ;;
     match r with
     | (output, Some err) => ret (Err (AdbPushFailed err output))
     | (_, None) =>
         print (Pushed (Filename b) remoteDir) ;;
         e <- call (Remove tmpPath) (os_Remove tmpPath) ;;
         match e with
         | Some err => print (WarnDelete tmpPath err) ;; ret (Ok tt)
         | None => ret (Ok tt)
         end
     end)%go.

(** The deferred calls run when the function leaves, last deferred
    first, also when it leaves by a panic. *)
Definition downloadAndPushBeatmap (b : Beatmap) (serial remoteDir : string)
    : M W (result unit sync_error) :=
  let fullURL := fullURL b in
  (r <- call (Get fullURL) (http_Get fullURL) ;;
   match r with
   | inr err => ret (Err (FailedToDownload (Filename b) err))
   | inl resp =>
       res <-
         (if negb (StatusCode resp =? 200) then
            ret (Err (DownloadFailedStatus (Filename b) (Status resp)))
          else
            let tmpPath := temp_path (Filename b) in
            c <- call (Create tmpPath) (os_Create tmpPath) ;;
            match c with
            | Some err => ret (Err (FailedToCreate err))
            | None =>
                res <-
                  (w <- call (Copy tmpPath) (io_Copy tmpPath (Body resp)) ;;
                   match w with
                   | Some err => ret (Err (FailedToWrite err))
                   | None => pushAndCleanup b serial remoteDir tmpPath
                   end) ;;
                call_ (CloseFile tmpPath) (file_Close tmpPath) ;;
                ret res
            end) ;;
       call_ (CloseBody fullURL) (body_Close fullURL) ;;
       ret res
   end)%go.

End Sync.

(** ** The body of [main] *)

Module Main.

(** Step 1: [deviceFilesMap[file] = true] for every listed file. *)
Definition deviceFilesMap (files : list string) : gmap string bool :=
  foldl (λ m file, <[file := true]> m) ∅ files.

(** Reading a Go map: an absent key yields the zero value [false]. *)
Definition index (m : gmap string bool) (k : string) : bool :=
  default false (m !! k).

(** The inner loop over [page.Data], appending to [missing]. *)
Definition scanPage (m : gmap string bool)
    (missing : list Beatmap) (data : list Beatmap) : list Beatmap :=
  foldl (λ acc beatmap,
           if negb (index m (Filename beatmap)) then acc ++ [beatmap] else acc)
        missing data.

(** Step 2: the outer loop over [allPages], starting from the nil slice. *)
Definition missing (files : list string) (allPages : list BeatmapPage)
    : list Beatmap :=
  let m := deviceFilesMap files in
  foldl (λ acc page, scanPage m acc (Data page)) [] allPages.

Definition remoteDir : string := "/sdcard/SynthRidersUC/CustomSongs/".

(** How the final loop ends: after the last entry, or by a panic. *)
Inductive loop_end := Completed | Aborted.

(** Download missing beatmaps and upload to device. *)
Fixpoint syncLoop {W} `{OS W} (missing : list Beatmap) (serial : string)
    : M W loop_end :=
  match missing with
  | [] => ret Completed
  | bm :: rest =>
      (r <- downloadAndPushBeatmap bm serial remoteDir ;;
       match r with
       | Panic => ret Aborted
       | Err e => print (ErrorProcessing (Filename bm) e) ;; syncLoop rest serial
       | Ok _ => syncLoop rest serial
       end)%go
  end.

(** From [firstPage := fetchPage(1)] to the end of step 2, for the device
    listing [files]. *)
Inductive catalog_outcome :=
  | Terminated (f : fatal)
  | Crashed
  | Reconciled (missing : list Beatmap).

Inductive catalog `{CatalogServer} (files : list string) : catalog_outcome → Prop :=
  | catalog_first_fatal f :
      fetchPage 1 = LogFatal f →
      catalog files (Terminated f)
  | catalog_fatal firstPage f :
      fetchPage 1 = Return firstPage →
      reaches (PageCount firstPage) (start (PageCount firstPage)) (Exited f) →
      catalog files (Terminated f)
  | catalog_panic firstPage :
      fetchPage 1 = Return firstPage →
      reaches (PageCount firstPage) (start (PageCount firstPage)) Panicked →
      catalog files Crashed
  | catalog_done firstPage allPages :
      fetchPage 1 = Return firstPage →
      fetchAllPagesConcurrently (PageCount firstPage) allPages →
      catalog files (Reconciled (missing files allPages)).

End Main.

(** ** Vocabulary of the statements *)

(** An entry is kept when its file name is not listed on the device. *)
Definition absent (files : list string) (b : Beatmap) : Prop :=
  Filename b ∉ files.

Global Instance absent_dec files b : Decision (absent files b).
Proof. unfold absent. apply _. Defined.

(** All catalog entries, in traversal order. *)
Definition entries (allPages : list BeatmapPage) : list Beatmap :=
  concat (Data <$> allPages).

(** The entries of a sequence that carry a given file name. *)
Definition named (f : string) (l : list Beatmap) : list Beatmap :=
  filter (λ b, Filename b = f) l.

(** A page that holds the given entries and nothing else of interest. *)
Definition pageOf (data : list Beatmap) : BeatmapPage :=
  {| Data := data; Count := Z.of_nat (length data); Total := Z.of_nat (length data);
     Page := 1; PageCount := 1 |}.

(** A goroutine that has not sent its page yet. *)
Definition unsent (g : goroutine) : nat :=
  match g with AtDone => 0 | _ => 1 end.

(** What holds of the loop variable, the counter and the channel in every
    state of a call: the counter is the number of goroutines that have not
    called [wg.Done()], none of which was spawned beyond [pageNum - 1], and
    every page spawned so far is in the channel or still to be sent. *)
Definition chan_inv (totalPages : Z) (s : orch) : Prop :=
  1 ≤ pageNum s ≤ totalPages + 1 ∧
  wg s = Z.of_nat (length (pool s)) ∧
  wg s ≤ int32_max ∧
  Z.of_nat (length (pool s)) ≤ pageNum s - 1 ∧
  Z.of_nat (sum_list_with unsent (pool s) + length (results s)) = pageNum s - 1.

Section CatalogVocabulary.
Context `{CatalogServer}.

(** The request for a page fails, or its answer does not decode. *)
Definition fetch_fails (page : Z) : Prop :=
  (∃ err, client_Get (pageURL page) = inr err) ∨
  (∃ body err, client_Get (pageURL page) = inl body ∧ json_Decode body = inr err).

(** [pages] are the pages that [fetchPage(1)], ..., [fetchPage(n)] return. *)
Definition fetched (n : Z) (pages : list BeatmapPage) : Prop :=
  Forall2 (λ i pg, fetchPage i = Return pg) (seqZ 1 n) pages.

(** What a goroutine has still to send. *)
Definition owed (g : goroutine) : list (outcome BeatmapPage) :=
  match g with
  | AtFetch page => [fetchPage page]
  | AtSend pg => [Return pg]
  | AtDone => []
  end.

Definition owes (pool : list goroutine) : list (outcome BeatmapPage) :=
  concat (owed <$> pool).

(** The process has been ended by [log.Fatalf]. *)
Definition exited (st : status) : Prop := ∃ f, st = Exited f.

(** The call has returned a permutation of [pages]. *)
Definition returned_all (pages : list BeatmapPage) (st : status) : Prop :=
  ∃ allPages, st = Returned allPages ∧ allPages ≡ₚ pages.

(** The process has ended without returning: by [log.Fatalf] or by a
    panic. *)
Definition aborted (st : status) : Prop := exited st ∨ st = Panicked.

(** Invariant of a call in which the pages [1..totalPages] are all
    fetched: what the goroutines have still to send and the pages in the
    channel are, together, the pages spawned so far. *)
Definition fan_inv (totalPages : Z) (pages : list BeatmapPage) (s : orch) : Prop :=
  chan_inv totalPages s ∧
  owes (pool s) ++ (Return <$> results s)
  ≡ₚ Return <$> take (Z.to_nat (pageNum s - 1)) pages.

(** Invariant of a call in which the fetch of page [p] is going to fail:
    its goroutine is not spawned yet, or it has not fetched yet. *)
Definition doomed_inv (totalPages p : Z) (s : orch) : Prop :=
  chan_inv totalPages s ∧
  (pageNum s ≤ p ∨ AtFetch p ∈ pool s).

End CatalogVocabulary.

(** Steps a goroutine still has to take, and steps the whole call still has
    to take before it returns. *)
Definition weight (g : goroutine) : nat :=
  match g with AtFetch _ => 3 | AtSend _ => 2 | AtDone => 1 end.

Definition remaining (totalPages : Z) (s : orch) : nat :=
  (4 * Z.to_nat (totalPages + 1 - pageNum s) + sum_list_with weight (pool s))%nat.

(** The URLs requested with [http.Get], in order, as a trace records them. *)
Definition requests (t : list event) : list string :=
  omap (λ e, match e with Call (Get url) => Some url | _ => None end) t.

Section SyncVocabulary.
Context {W : Type} `{OS W}.

(** The download of [b] from world [w] goes through: status 200, the
    temporary file created and written; [w3] is the world before the
    push. *)
Definition downloaded (b : Beatmap) (w : W) (resp : Response) (w3 : W) : Prop :=
  ∃ w1 w2,
    http_Get (fullURL b) w = (inl resp, w1) ∧
    StatusCode resp = 200 ∧
    os_Create (temp_path (Filename b)) w1 = (None, w2) ∧
    io_Copy (temp_path (Filename b)) (Body resp) w2 = (None, w3).

(** The download answers with a status other than 200. *)
Definition download_refused (b : Beatmap) (w : W) : Prop :=
  ∃ resp w1, http_Get (fullURL b) w = (inl resp, w1) ∧ StatusCode resp ≠ 200.

(** The download goes through and [adb push] then fails. *)
Definition transfer_fails (b : Beatmap) (serial remoteDir : string) (w : W) : Prop :=
  serial ≠ "" ∧
  ∃ resp w3 output err w4,
    downloaded b w resp w3 ∧
    exec_CombinedOutput (pushCommand serial (temp_path (Filename b)) remoteDir) w3
      = ((output, Some err), w4).

(** The state after the loop has printed the error of an entry. *)
Definition logged (l : line) (st : St W) : St W :=
  {| world := world st; trace := trace st ++ [Printed l] |}.

End SyncVocabulary.

(** ** A simulated world for the examples *)

Module Sim.

Record disk := mkDisk {
  tmp : list string;        (* temporary files present *)
  device : list string;     (* files pushed to the device *)
  stdin : list (option Z)   (* what successive [fmt.Scanf] calls read *)
}.

Definition get (url : string) (w : disk) : (Response + string) * disk :=
  if decide (url = "https://synthriderz.com/dl/b") then
    (inl (mkResp 200 "200 OK" "beatmap-b"), w)
  else if decide (url = "https://synthriderz.com/dl/c") then
    (inl (mkResp 200 "200 OK" "beatmap-c"), w)
  else if decide (url = "https://synthriderz.com/dl/gone") then
    (inl (mkResp 404 "404 Not Found" ""), w)
  else (inr "no such host", w).

Definition create (path : string) (w : disk) : option string * disk :=
  (None, {| tmp := path :: tmp w; device := device w; stdin := stdin w |}).

Definition copy (path body : string) (w : disk) : option string * disk :=
  (None, w).

(** [adb push] fails for the serial [offline]. *)
Definition combinedOutput (args : list string) (w : disk)
    : (string * option string) * disk :=
  match args with
  | [_; _; serial; _; src; _] =>
      if decide (serial = "offline")
      then (("adb: device offline", Some "exit status 1"), w)
      else (("1 file pushed", None),
            {| tmp := tmp w; device := src :: device w; stdin := stdin w |})
  | _ => (("", Some "exit status 1"), w)
  end.

(** Deleting [/tmp/c.synth] is refused. *)
Definition remove (path : string) (w : disk) : option string * disk :=
  if decide (path = "/tmp/c.synth") then (Some "permission denied", w)
  else (None, {| tmp := filter (λ p, p ≠ path) (tmp w);
                 device := device w; stdin := stdin w |}).

Definition scanf (w : disk) : option Z * disk :=
  match stdin w with
  | [] => (None, w)
  | x :: rest => (x, {| tmp := tmp w; device := device w; stdin := rest |})
  end.

Definition os : OS disk := {|
  http_Get := get;
  temp_path := λ name, "/tmp/" +:+ name;
  os_Create := create;
  io_Copy := copy;
  exec_CombinedOutput := combinedOutput;
  os_Remove := remove;
  file_Close := λ _ w, w;
  body_Close := λ _ w, w;
  fmt_Scanf_d := scanf
|}.

Definition init (input : list (option Z)) : St disk :=
  {| world := {| tmp := []; device := []; stdin := input |}; trace := [] |}.

Definition gone : Beatmap := mkBeatmap "gone.synth" "/dl/gone".
Definition b : Beatmap := mkBeatmap "b.synth" "/dl/b".
Definition c : Beatmap := mkBeatmap "c.synth" "/dl/c".

Definition page1 : BeatmapPage := mkPage [gone; b] 2 3 1 3.
Definition page2 : BeatmapPage := mkPage [c] 1 3 2 3.

(** Pages 1 and 2 are served, page 3 comes back as something that is
    not JSON, and nothing else answers. *)
Definition server : CatalogServer := {|
  client_Get := λ url,
    if decide (url = pageURL 1) then inl "page-1"
    else if decide (url = pageURL 2) then inl "page-2"
    else if decide (url = pageURL 3) then inl "<html>"
    else inr "connection refused";
  json_Decode := λ body,
    if decide (body = "page-1") then inl page1
    else if decide (body = "page-2") then inl page2
    else inr "invalid character"
|}.

Definition quest : Device := mkDevice "1WMHH000X" "Quest_2".
Definition pico : Device := mkDevice "PA7L10" "(unknown)".

End Sim.

(** ** Listing the connected devices *)

(** [strings.HasPrefix] and [strings.TrimPrefix] compare bytes. *)
Fixpoint strings_HasPrefix (s prefix : string) : bool :=
  match prefix, s with
  | "", _ => true
  | String.String p prefix', String.String c s' =>
      if decide (c = p) then strings_HasPrefix s' prefix' else false
  | String.String _ _, "" => false
  end.

(** The slice [s[n:]] for [n <= len(s)]. *)
Fixpoint string_from (n : nat) (s : string) : string :=
  match n, s with
  | O, _ => s
  | S n', String.String _ s' => string_from n' s'
  | S _, "" => ""
  end.

Definition strings_TrimPrefix (s prefix : string) : string :=
  if strings_HasPrefix s prefix then string_from (String.length prefix) s else s.

(** The library functions that work on Unicode white space, and the line
    scanner: [bufio_lines output] is the sequence of lines that
    [scanner.Scan()] delivers over [output], with what [scanner.Err()]
    reports at the end. *)
Class Text := {
  strings_TrimSpace : string → string;
  strings_Fields : string → list string;
  bufio_lines : string → list string * option string
}.

(** [cmd.Output()] of a command: its standard output and an error;
    [net.DialTimeout("tcp", address, 1*time.Second)]: whether a connection
    was made; [conn.Close()]. *)
Class Adb (W : Type) := {
  exec_Output : list string → W → (string * option string) * W;
  net_DialTimeout : string → W → bool * W;
  conn_Close : W → W
}.

Section Devices.
Context `{Text}.

(** The inner loop of [listConnectedDevices]: the first field that starts
    with [model:] gives the model. *)
Fixpoint modelOf (fields : list string) : string :=
  match fields with
  | [] => "(unknown)"
  | field :: rest =>
      if strings_HasPrefix field "model:" then strings_TrimPrefix field "model:"
      else modelOf rest
  end.

(** The body of the scanning loop, for one line. *)
Definition scanLine (devices : list Device) (line : string) : list Device :=
  if strings_HasPrefix line "List of devices"
     || bool_decide (strings_TrimSpace line = "")
  then devices
  else
    let fields := strings_Fields line in
    match fields with
    | serial :: state :: _ =>
        if bool_decide (state ≠ "device") then devices
        else devices ++ [{| Serial := serial; Model := modelOf fields |}]
    | _ => devices
    end.

(** listConnectedDevices lists all connected devices and returns a slice of
    Device structs. *)
Definition listConnectedDevices {W : Type} `{Adb W} : M W (result (list Device) string) :=
  (r <- call (Exec ["adb"; "devices"; "-l"]) (exec_Output ["adb"; "devices"; "-l"]) ;;
   match r with
   | (_, Some err) => ret (Err err)
   | (output, None) =>
       let '(lines, scanErr) := bufio_lines output in
       let devices := foldl scanLine [] lines in
       match scanErr with
       | Some err => ret (Err err)
       | None => ret (Ok devices)
       end
   end)%go.

End Devices.

(** ** The whole program *)

(** [strings.Split(s, "\n")]: the pieces between the newlines, one more
    than there are newlines; [cur] is the piece being read. *)
Fixpoint splitNewline (cur : string) (s : string) : list string :=
  match s with
  | "" => [cur]
  | String.String c s' =>
      if decide (c = Ascii.ascii_of_nat 10) then cur :: splitNewline "" s'
      else splitNewline (cur +:+ String.String c "") s'
  end.

(** The lines that [main] and the functions around the device bridge
    print. *)
Inductive main_line :=
  | AdbAlreadyRunning
  | FailedToStartAdb (err : string)
  | AdbStartOutput (output : string)
  | ErrorLine (err : string)
  | ErrorSelecting (e : select_error)
  | Selected (serial : string)
  | ErrorListing (folderPath err : string)
  | ItemCount (count : Z)
  | ExecutionTime
  | ProcessedPage (page count : Z)
  | MissingHeader (count : Z)
  | MissingEntry (filename downloadUrl : string)
  | AllPresent.

(** What the whole program does: the events of the functions above, its
    own output, and the probe of the bridge's port. *)
Inductive main_event :=
  | Sys (e : event)
  | Say (l : main_line)
  | Dial (address : string)
  | CloseConn.

Record Proc (W : Type) := mkProc { pworld : W; plog : list main_event }.
Arguments mkProc {W} pworld plog.
Arguments pworld {W} p.
Arguments plog {W} p.

Definition P (W A : Type) : Type := Proc W → A * Proc W.

Definition pret {W A} (a : A) : P W A := λ p, (a, p).

Definition pbind {W A B} (m : P W A) (k : A → P W B) : P W B :=
  λ p, let '(a, p') := m p in k a p'.

Declare Scope main_scope.
Delimit Scope main_scope with main.
Notation "x <- m ;; k" := (pbind m (λ x, k))
  (at level 100, m at next level, right associativity) : main_scope.
Notation "m ;; k" := (pbind m (λ _, k))
  (at level 100, right associativity) : main_scope.

(** Running one of the functions above inside the program: its events are
    appended to the log. *)
Definition lift {W A} (m : M W A) : P W A :=
  λ p, let '(a, st) := m {| world := pworld p; trace := [] |} in
       (a, {| pworld := world st; plog := plog p ++ (Sys <$> trace st) |}).

Definition say {W} (l : main_line) : P W unit :=
  λ p, (tt, {| pworld := pworld p; plog := plog p ++ [Say l] |}).

Definition sayAll {W} (ls : list main_line) : P W unit :=
  λ p, (tt, {| pworld := pworld p; plog := plog p ++ (Say <$> ls) |}).

(** How a run of [main] ends.  [Pending] is a run whose schedule stops
    before the concurrent fetch is over. *)
Inductive main_end :=
  | ReturnedEarly
  | Finished
  | Exit (f : fatal)
  | Crashed
  | Pending.

Section Program.
Context `{Text} `{CatalogServer} {W : Type} `{OS W} `{Adb W}.

Definition isAdbServerRunning : P W bool :=
  λ p, let '(connected, w) := net_DialTimeout "127.0.0.1:5037" (pworld p) in
       if connected
       then (true, {| pworld := conn_Close w;
                      plog := plog p ++ [Dial "127.0.0.1:5037"; CloseConn] |})
       else (false, {| pworld := w; plog := plog p ++ [Dial "127.0.0.1:5037"] |}).

Definition startAdbServer : P W unit :=
  (r <- lift (call (Exec ["adb"; "start-server"])
                   (exec_CombinedOutput ["adb"; "start-server"])) ;;
   match r with
   | (output, Some err) => say (FailedToStartAdb err) ;; say (AdbStartOutput output)
   | (output, None) => say (AdbStartOutput output)
   end)%main.

(** listDeviceFolder lists the contents of a specified folder on the
    connected device. *)
Definition listDeviceFolder (folderPath serial : string) : P W (list string) :=
  (r <- lift (call (Exec ["adb"; "-s"; serial; "shell"; "ls"; folderPath])
                   (exec_Output ["adb"; "-s"; serial; "shell"; "ls"; folderPath])) ;;
   match r with
   | (_, Some err) => say (ErrorListing folderPath err) ;; pret []
   | (output, None) =>
       let lines := splitNewline "" output in
       pret (foldl (λ nonEmptyLines line,
                      if bool_decide (strings_TrimSpace line ≠ "")
                      then nonEmptyLines ++ [line] else nonEmptyLines)
                   [] lines)
   end)%main.

(** [main] up to the count of the device files: the serial chosen and the
    files listed, or [Err tt] when it has returned. *)
Definition mainSetup : P W (result (string * list string) unit) :=
  (running <- isAdbServerRunning ;;
   (if running then say AdbAlreadyRunning else startAdbServer) ;;
   r <- lift listConnectedDevices ;;
   match r with
   | Err err => say (ErrorLine err) ;; pret (Err tt)
   | Panic => pret Panic
   | Ok devices =>
       r <- lift (selectDevice devices) ;;
       match r with
       | Err e => say (ErrorSelecting e) ;; pret (Err tt)
       | Panic => pret Panic
       | Ok serial =>
           say (Selected serial) ;;
           files <- listDeviceFolder "/sdcard/SynthRidersUC/CustomSongs/" serial ;;
           say (ItemCount (Z.of_nat (length files))) ;;
           pret (Ok (serial, files))
       end
   end)%main.

(** Step 3 of [main]: the report of the missing beatmaps. *)
Definition report (missing : list Beatmap) : list main_line :=
  if 0 <? Z.of_nat (length missing) then
    MissingHeader (Z.of_nat (length missing))
    :: ((λ bm, MissingEntry (Filename bm) (DownloadUrl bm)) <$> missing)
  else [AllPresent].

(** [main] from the fetch of the first page on; the goroutines of the
    concurrent fetch run under the schedule [sched].  The duration that
    is printed is left out of the line. *)
Definition mainSync (sched : list choice) (serial : string) (files : list string)
    : P W main_end :=
  match fetchPage 1 with
  | LogFatal f => pret (Exit f)
  | Return firstPage =>
      match run (PageCount firstPage) sched (start (PageCount firstPage)) with
      | Running _ => pret Pending
      | Exited f => pret (Exit f)
      | Panicked => pret Crashed
      | Returned allPages =>
          (say ExecutionTime ;;
           sayAll ((λ page, ProcessedPage (Page page) (Z.of_nat (length (Data page))))
                   <$> allPages) ;;
           let missing := Main.missing files allPages in
           sayAll (report missing) ;;
           e <- lift (Main.syncLoop missing serial) ;;
           match e with
           | Main.Completed => pret Finished
           | Main.Aborted => pret Crashed
           end)%main
      end
  end.

Definition main (sched : list choice) : P W main_end :=
  (r <- mainSetup ;;
   match r with
   | Err _ => pret ReturnedEarly
   | Panic => pret Crashed
   | Ok (serial, files) => mainSync sched serial files
   end)%main.

End Program.

(** ** More vocabulary *)

(** The events a computation has appended to the trace [t0]. *)
Definition since (t0 t : list event) : list event := drop (length t0) t.

(** The file names for which the loop has printed a verdict: pushed, or
    error. *)
Definition verdicts (t : list event) : list string :=
  omap (λ e, match e with
             | Printed (Pushed f _) => Some f
             | Printed (ErrorProcessing f _) => Some f
             | _ => None
             end) t.

(** The commands run, in order. *)
Definition commands (t : list event) : list (list string) :=
  omap (λ e, match e with Call (Exec args) => Some args | _ => None end) t.

(** The numbered lines that [selectDevice] prints for a list of devices. *)
Definition menu (devices : list Device) : list event :=
  imap (λ k d, Printed (DeviceLine (Z.of_nat k + 1) (Serial d) (Model d))) devices.

(** The beatmap downloads that a log of the program records, in order. *)
Definition downloads (log : list main_event) : list string :=
  omap (λ e, match e with Sys (Call (Get url)) => Some url | _ => None end) log.

(** The commands that a log of the program records, in order. *)
Definition executed (log : list main_event) : list (list string) :=
  omap (λ e, match e with Sys (Call (Exec args)) => Some args | _ => None end) log.

(** A step of the program that downloads no beatmap. *)
Definition quiet {W A} (m : P W A) : Prop :=
  ∀ p, downloads (plog (snd (m p))) = downloads (plog p).


(** The byte [c] occurs in [s]. *)
Fixpoint occurs (c : Ascii.ascii) (s : string) : bool :=
  match s with
  | "" => false
  | String.String d s' => bool_decide (d = c) || occurs c s'
  end.

(** The call is over. *)
Definition final (st : status) : Prop := ∀ s, st ≠ Running s.

(** ** A simulated device bridge for the examples *)

Module SimAdb.

Definition nl : string := String.String (Ascii.ascii_of_nat 10) "".
Definition tab : string := String.String (Ascii.ascii_of_nat 9) "".

Definition isSpace (c : Ascii.ascii) : bool :=
  let n := Ascii.nat_of_ascii c in
  bool_decide (n = 32 ∨ (9 ≤ n ∧ n ≤ 13))%nat.

(** Fields of a line of ASCII text; [cur] is the field being read, in
    reverse. *)
Fixpoint fieldsFrom (cur : string) (s : string) : list string :=
  match s with
  | "" => if bool_decide (cur = "") then [] else [cur]
  | String.String c s' =>
      if isSpace c then
        (if bool_decide (cur = "") then [] else [cur]) ++ fieldsFrom "" s'
      else fieldsFrom (cur +:+ String.String c "") s'
  end.

Fixpoint trimLeft (s : string) : string :=
  match s with
  | String.String c s' => if isSpace c then trimLeft s' else s
  | "" => ""
  end.

(** Enough for blank-line tests: the text from the first non-space on. *)
Definition trimSpace (s : string) : string := trimLeft s.

Fixpoint linesFrom (cur : string) (s : string) : list string :=
  match s with
  | "" => if bool_decide (cur = "") then [] else [cur]
  | String.String c s' =>
      if bool_decide (c = Ascii.ascii_of_nat 10) then cur :: linesFrom "" s'
      else linesFrom (cur +:+ String.String c "") s'
  end.

Definition text : Text := {|
  strings_TrimSpace := trimSpace;
  strings_Fields := fieldsFrom "";
  bufio_lines := λ output, (linesFrom "" output, None)
|}.

Definition devicesOutput : string :=
  "List of devices attached" +:+ nl +:+
  "1WMHH000X     device usb:1-1 product:hollywood model:Quest_2 transport_id:1" +:+ nl +:+
  "PA7L10 unauthorized usb:1-2 transport_id:2" +:+ nl +:+
  "emulator-5554" +:+ tab +:+ "device" +:+ nl +:+ nl.

Definition folderOutput : string :=
  "b.synth" +:+ nl +:+ "old song.synth" +:+ nl +:+ nl.

(** The bridge answers the two listings; its server is not running at
    first. *)
Definition adb : Adb Sim.disk := {|
  exec_Output := λ args w,
    if decide (args = ["adb"; "devices"; "-l"]) then ((devicesOutput, None), w)
    else if decide (args = ["adb"; "-s"; "emulator-5554"; "shell"; "ls";
                            "/sdcard/SynthRidersUC/CustomSongs/"])
    then ((folderOutput, None), w)
    else (("", Some "exit status 1"), w);
  net_DialTimeout := λ _ w, (false, w);
  conn_Close := λ w, w
|}.

(** A catalog of two pages that are both served, and one that reports a
    negative page count. *)
Definition page1 : BeatmapPage := mkPage [Sim.gone; Sim.b] 2 3 1 2.
Definition page2 : BeatmapPage := mkPage [Sim.c] 1 3 2 2.

Definition catalog : CatalogServer := {|
  client_Get := λ url,
    if decide (url = pageURL 1) then inl "page-1"
    else if decide (url = pageURL 2) then inl "page-2"
    else inr "connection refused";
  json_Decode := λ body,
    if decide (body = "page-1") then inl page1
    else if decide (body = "page-2") then inl page2
    else inr "invalid character"
|}.

Definition broken : CatalogServer := {|
  client_Get := λ url, inl "page";
  json_Decode := λ body, inl (mkPage [] 0 0 1 (-1))
|}.

Definition boot (input : list (option Z)) : Proc Sim.disk :=
  {| pworld := world (Sim.init input); plog := [] |}.

(** A catalog without end: every page is served. *)
Definition endless : CatalogServer := {|
  client_Get := λ url, inl "page";
  json_Decode := λ body, inl page2
|}.

(** Both goroutines are spawned, then each in turn fetches, sends and
    calls [wg.Done()]. *)
Definition inOrder : list choice :=
  [MainThread; MainThread; Go 0; Go 0; Go 0; Go 0; Go 0; Go 0; MainThread].

End SimAdb.

(** * Properties *)

(** ** Reconciliation *)

Lemma deviceFilesMap_lookup (files : list string) (f : string) :
  Main.deviceFilesMap files !! f = if decide (f ∈ files) then Some true else None.
Proof.
  unfold Main.deviceFilesMap.
  assert (G : ∀ (m : gmap string bool),
    foldl (λ m file, <[file := true]> m) m files !! f
    = if decide (f ∈ files) then Some true else m !! f).
  { induction files as [|x xs IH]; intros m; simpl.
    - destruct (decide (f ∈ [])) as [Hin|_]; [by apply elem_of_nil in Hin|done].
    - rewrite IH.
      destruct (decide (f ∈ xs)) as [Hin|Hnin], (decide (f ∈ x :: xs)) as [Hin'|Hnin'];
        try done.
      + exfalso. apply Hnin'. by right.
      + apply elem_of_cons in Hin' as [->|?]; [|done]. by rewrite lookup_insert_eq.
      + rewrite lookup_insert_ne; [done|]. intros ->. apply Hnin'. by left. }
  rewrite G. by destruct (decide (f ∈ files)).
Qed.

Lemma index_deviceFilesMap (files : list string) (f : string) :
  Main.index (Main.deviceFilesMap files) f = bool_decide (f ∈ files).
Proof.
  unfold Main.index. rewrite deviceFilesMap_lookup.
  by destruct (decide (f ∈ files)); [rewrite bool_decide_true|rewrite bool_decide_false].
Qed.

Lemma scanPage_filter (files : list string) (acc data : list Beatmap) :
  Main.scanPage (Main.deviceFilesMap files) acc data
  = acc ++ filter (absent files) data.
Proof.
  unfold Main.scanPage. revert acc.
  induction data as [|b data IH]; intros acc; simpl.
  - by rewrite app_nil_r.
  - rewrite IH, index_deviceFilesMap. rewrite filter_cons.
    destruct (decide (absent files b)) as [Ha|Ha]; unfold absent in Ha.
    + rewrite bool_decide_false by done. simpl. by rewrite <- app_assoc.
    + rewrite bool_decide_true; [done|]. by apply dec_stable.
Qed.

Lemma missing_pagewise (files : list string) (allPages : list BeatmapPage) :
  Main.missing files allPages
  = concat ((λ p, filter (absent files) (Data p)) <$> allPages).
Proof.
  unfold Main.missing.
  assert (G : ∀ acc,
    foldl (λ acc page, Main.scanPage (Main.deviceFilesMap files) acc (Data page))
          acc allPages
    = acc ++ concat ((λ p, filter (absent files) (Data p)) <$> allPages)).
  { induction allPages as [|p ps IH]; intros acc; simpl.
    - by rewrite app_nil_r.
    - rewrite IH, scanPage_filter. by rewrite <- app_assoc. }
  apply (G []).
Qed.

Lemma missing_filter (files : list string) (allPages : list BeatmapPage) :
  Main.missing files allPages = filter (absent files) (entries allPages).
Proof.
  rewrite missing_pagewise. unfold entries.
  induction allPages as [|p ps IH]; [done|].
  rewrite !fmap_cons. cbn [concat]. by rewrite filter_app, IH.
Qed.

(** C2. The missing list holds no entry whose file name is on the device,
    and it is exactly the catalog entries whose file name is not on the
    device, one element per occurrence and in traversal order.  For the
    device listing [a.synth] and one page with [a.synth] and [b.synth] the
    missing list is [[b.synth]]. *)
Theorem missing_sound_complete (files : list string) (allPages : list BeatmapPage) :
  (∀ b, b ∈ Main.missing files allPages → Filename b ∉ files) ∧
  Main.missing files allPages = filter (absent files) (entries allPages) ∧
  (∀ b, b ∈ entries allPages → Filename b ∉ files → b ∈ Main.missing files allPages) ∧
  (∀ ua ub c t p pc,
     Main.missing ["a.synth"]
       [mkPage [mkBeatmap "a.synth" ua; mkBeatmap "b.synth" ub] c t p pc]
     = [mkBeatmap "b.synth" ub]).
Proof.
  split; [|split; [|split]].
  - intros b. rewrite missing_filter, list_elem_of_filter. by intros [? _].
  - apply missing_filter.
  - intros b Hin Hab. rewrite missing_filter, list_elem_of_filter. done.
  - intros. rewrite missing_filter. reflexivity.
Qed.

(** C3. The entries that one page contributes to the missing list form one
    block of the output, between the contributions of the pages before and
    after it, and inside the block they keep the order they have in the
    page.  With no file on the device, a single page yields all its entries
    in the order of the page. *)
Theorem missing_keeps_page_order (files : list string)
    (before after : list BeatmapPage) (p : BeatmapPage) :
  Main.missing files (before ++ p :: after)
    = Main.missing files before
      ++ filter (absent files) (Data p)
      ++ Main.missing files after
  ∧ filter (absent files) (Data p) `sublist_of` Data p
  ∧ Main.missing [] [p] = Data p
  ∧ (∀ b1 b2 b3 c t n pc,
       Main.missing [] [mkPage [b1; b2; b3] c t n pc] = [b1; b2; b3]).
Proof.
  assert (Hall : ∀ q, Main.missing [] [q] = Data q).
  { intros q. rewrite missing_pagewise. simpl. rewrite app_nil_r.
    induction (Data q) as [|b l IH]; [done|].
    rewrite filter_cons_True; [by rewrite IH|]. unfold absent. apply not_elem_of_nil. }
  split; [|split; [|split]].
  - rewrite !missing_pagewise, fmap_app, fmap_cons, concat_app. done.
  - apply sublist_filter.
  - apply Hall.
  - intros. apply Hall.
Qed.

(** C4. No de-duplication: for a file name that is not on the device, the
    missing list has as many elements of that name as the catalog has
    entries of that name, within a page and across pages. *)
Theorem missing_keeps_duplicates (files : list string) (allPages : list BeatmapPage)
    (f : string) :
  f ∉ files →
  named f (Main.missing files allPages) = named f (entries allPages) ∧
  length (named f (Main.missing files allPages)) = length (named f (entries allPages)).
Proof.
  intros Hf.
  assert (E : named f (Main.missing files allPages) = named f (entries allPages)).
  { unfold named. rewrite missing_filter, list_filter_filter.
    apply list_filter_iff. intros b. unfold absent. split; [by intros [? _]|].
    intros Hb. split; [done|]. by rewrite Hb. }
  split; [done | by rewrite E].
Qed.

Lemma missing_keeps_duplicates_witness :
  named "x.synth"
    (Main.missing ["a.synth"]
       [pageOf [mkBeatmap "x.synth" "/dl/x"; mkBeatmap "x.synth" "/dl/x"];
        pageOf [mkBeatmap "x.synth" "/dl/x"]])
  = [mkBeatmap "x.synth" "/dl/x"; mkBeatmap "x.synth" "/dl/x"; mkBeatmap "x.synth" "/dl/x"].
Proof.
  destruct (missing_keeps_duplicates ["a.synth"]
              [pageOf [mkBeatmap "x.synth" "/dl/x"; mkBeatmap "x.synth" "/dl/x"];
               pageOf [mkBeatmap "x.synth" "/dl/x"]] "x.synth")
    as [E _].
  - by apply not_elem_of_cons; split; [|apply not_elem_of_nil].
  - rewrite E. reflexivity.
Defined.

(** C5. Two runs on the same aggregate of pages (same pages, same order) and
    the same set of device files produce the same missing list, whatever
    the order and multiplicity in which the device files were listed; and
    running the reconciler again on its own output changes nothing. *)
Theorem missing_deterministic (files1 files2 : list string)
    (pages1 pages2 : list BeatmapPage) :
  pages1 = pages2 →
  (∀ f, f ∈ files1 ↔ f ∈ files2) →
  Main.missing files1 pages1 = Main.missing files2 pages2 ∧
  Main.missing files1 [pageOf (Main.missing files1 pages1)] = Main.missing files1 pages1.
Proof.
  intros -> Hset. split.
  - rewrite !missing_filter. apply list_filter_iff. intros b. unfold absent.
    by rewrite Hset.
  - rewrite (missing_filter files1 [pageOf _]). unfold entries. simpl.
    rewrite app_nil_r, missing_filter. by apply list_filter_filter_l.
Qed.

Lemma missing_deterministic_witness :
  Main.missing ["a.synth"; "c.synth"]
    [pageOf [mkBeatmap "a.synth" "/a"; mkBeatmap "b.synth" "/b"]]
  = Main.missing ["c.synth"; "a.synth"; "c.synth"]
      [pageOf [mkBeatmap "a.synth" "/a"; mkBeatmap "b.synth" "/b"]].
Proof.
  refine (proj1 (missing_deterministic ["a.synth"; "c.synth"]
                   ["c.synth"; "a.synth"; "c.synth"] _ _ eq_refl _)).
  intros f. rewrite !elem_of_cons. pose proof (not_elem_of_nil f). tauto.
Defined.

(** ** Device selection *)

Section SelectDevice.
Context {W : Type} `{OS W}.

Lemma printDevices_world (devices : list Device) (i : Z) (st : St W) :
  world (snd (printDevices i devices st)) = world st.
Proof.
  revert i st. induction devices as [|d ds IH]; intros i st; [done|].
  cbn [printDevices]. unfold bind, print, emit. simpl. by rewrite IH.
Qed.

Lemma slice_at_in_range {A} (l : list A) (i : Z) :
  0 ≤ i < Z.of_nat (length l) → ∃ x, slice_at l i = Some x ∧ l !! Z.to_nat i = Some x.
Proof.
  intros Hi. unfold slice_at.
  destruct (i <? 0) eqn:E1; [lia|]. destruct (Z.of_nat (length l) <=? i) eqn:E2; [lia|].
  simpl. destruct (lookup_lt_is_Some_2 l (Z.to_nat i)) as [x Hx]; [lia|]. eauto.
Qed.

(** What [selectDevice] returns, by cases on the list and on what
    [fmt.Scanf] delivers. *)
Lemma selectDevice_cases (devices : list Device) (st : St W) :
  fst (selectDevice devices st) =
    if Z.of_nat (length devices) =? 0 then Err NoDevicesFound
    else match fst (fmt_Scanf_d (world st)) with
         | None => Err InvalidChoice
         | Some choice =>
             if (choice <? 1) || (Z.of_nat (length devices) <? choice)
             then Err InvalidChoice
             else match slice_at devices (choice - 1) with
                  | Some d => Ok (Serial d)
                  | None => Panic
                  end
         end.
Proof.
  unfold selectDevice. destruct (Z.of_nat (length devices) =? 0); [done|].
  unfold bind, print, emit, call. simpl.
  destruct (printDevices 0 devices _) as [[] st1] eqn:E1.
  assert (Hw : world st1 = world st).
  { change st1 with (snd (tt, st1)). rewrite <- E1. by rewrite printDevices_world. }
  simpl. rewrite Hw. destruct (fmt_Scanf_d (world st)) as [[c|] w']; simpl; [|done].
  destruct ((c <? 1) || (Z.of_nat (length devices) <? c)); [done|].
  by destruct (slice_at devices (c - 1)).
Qed.

End SelectDevice.

(** C10. [selectDevice] returns an error exactly when the device list is
    empty, [fmt.Scanf] could not read an integer, or the choice read is
    outside [1..len(devices)]; for a choice [c] in that range (and a
    non-empty list) it returns the serial of [devices[c-1]], and the index
    expression never panics. *)
Theorem selectDevice_spec {W : Type} `{OS W} (devices : list Device) (st : St W) :
  let r := fst (selectDevice devices st) in
  let input := fst (fmt_Scanf_d (world st)) in
  ((∃ e, r = Err e) ↔
     devices = [] ∨ input = None ∨
     ∃ c, input = Some c ∧ (c < 1 ∨ Z.of_nat (length devices) < c)) ∧
  (∀ c, input = Some c → 1 ≤ c ≤ Z.of_nat (length devices) →
     ∃ d, devices !! Z.to_nat (c - 1) = Some d ∧ r = Ok (Serial d)) ∧
  r ≠ Panic.
Proof.
  intros r input. subst r input. rewrite selectDevice_cases.
  destruct (Z.of_nat (length devices) =? 0) eqn:Elen.
  { assert (devices = []) as -> by (destruct devices; [done | simpl in Elen; lia]).
    split; [|split]; [ | simpl; intros; lia | done ].
    split; [auto | eauto]. }
  assert (Hne : devices ≠ []) by (intros ->; simpl in Elen; lia).
  destruct (fst (fmt_Scanf_d (world st))) as [c|].
  2: { split; [|split]; [ | done | done ]. split; [auto | eauto]. }
  destruct ((c <? 1) || (Z.of_nat (length devices) <? c)) eqn:Erange.
  { split; [|split]; [ | | done ].
    - split; [| eauto]. intros _. right; right. exists c. split; [done|]. lia.
    - intros c' [= <-] ?. lia. }
  destruct (slice_at_in_range devices (c - 1)) as (d & Hd & Hlk); [lia|].
  rewrite Hd. split; [|split]; [ | | done ].
  - split; [by intros [? ?]|]. intros [?|[?|(c' & [= <-] & ?)]]; [done|done|lia].
  - intros c' [= <-] _. eauto.
Qed.

(** ** Download and push *)

Ltac go_unfold :=
  unfold downloadAndPushBeatmap, pushAndCleanup, bind, call_, call, print, emit, ret.

Section SyncFacts.
Context {W : Type} `{OS W}.
Implicit Types (b : Beatmap) (serial remoteDir : string) (st : St W).

Lemma requests_snoc (t : list event) (e : event) :
  requests (t ++ [e])
  = requests t ++ match e with Call (Get url) => [url] | _ => [] end.
Proof.
  unfold requests. rewrite omap_app. f_equal.
  by destruct e as [[]|].
Qed.

(** A refused download: the error is returned after the deferred close. *)
Lemma download_refused_run b serial remoteDir st resp w1 :
  http_Get (fullURL b) (world st) = (inl resp, w1) →
  StatusCode resp ≠ 200 →
  downloadAndPushBeatmap b serial remoteDir st
  = (Err (DownloadFailedStatus (Filename b) (Status resp)),
     {| world := body_Close (fullURL b) w1;
        trace := trace st ++ [Call (Get (fullURL b))] ++ [Call (CloseBody (fullURL b))] |}).
Proof.
  intros Hget Hcode. go_unfold. simpl. rewrite Hget. simpl.
  destruct (StatusCode resp =? 200) eqn:E; [lia|]. simpl.
  by rewrite <- app_assoc.
Qed.

(** After a successful download the function does what
    [pushAndCleanup] does, then runs the two deferred closes. *)
Lemma downloaded_run b serial remoteDir st resp w3 :
  downloaded b (world st) resp w3 →
  downloadAndPushBeatmap b serial remoteDir st
  = let tmpPath := temp_path (Filename b) in
    let '(r, st') :=
      pushAndCleanup b serial remoteDir tmpPath
        {| world := w3;
           trace := trace st ++ [Call (Get (fullURL b)); Call (Create tmpPath);
                                 Call (Copy tmpPath)] |} in
    (r, {| world := body_Close (fullURL b) (file_Close tmpPath (world st'));
           trace := trace st' ++ [Call (CloseFile tmpPath); Call (CloseBody (fullURL b))] |}).
Proof.
  intros (w1 & w2 & Hget & Hcode & Hcreate & Hcopy).
  unfold downloadAndPushBeatmap, bind, call_, call, ret. simpl.
  rewrite Hget. simpl. rewrite Hcode. simpl. rewrite Hcreate. simpl.
  rewrite Hcopy. simpl. rewrite <- !app_assoc. simpl.
  destruct (pushAndCleanup _ _ _ _ _) as [r st']. simpl.
  by rewrite <- app_assoc.
Qed.

Lemma pushAndCleanup_panic b serial remoteDir tmpPath st :
  fst (pushAndCleanup b serial remoteDir tmpPath st) = Panic ↔ serial = "".
Proof.
  unfold pushAndCleanup, bind, call, print, emit, ret.
  destruct (decide (serial = "")) as [->|Hne]; [done|].
  split; [|done]. simpl.
  destruct (exec_CombinedOutput _ _) as [[out [err|]] w4]; simpl; [done|].
  by destruct (os_Remove _ _) as [[err|] w5].
Qed.

Lemma panic_inv b serial remoteDir st :
  fst (downloadAndPushBeatmap b serial remoteDir st) = Panic →
  serial = "" ∧ ∃ resp w3, downloaded b (world st) resp w3.
Proof.
  destruct (http_Get (fullURL b) (world st)) as [[resp|err] w1] eqn:Hget.
  2: { unfold downloadAndPushBeatmap, bind, call, ret. simpl. by rewrite Hget. }
  destruct (decide (StatusCode resp = 200)) as [Hcode|Hcode].
  2: { by erewrite download_refused_run. }
  destruct (os_Create (temp_path (Filename b)) w1) as [[err|] w2] eqn:Hcreate.
  { unfold downloadAndPushBeatmap, bind, call_, call, ret. simpl.
    rewrite Hget. simpl. rewrite Hcode. simpl. by rewrite Hcreate. }
  destruct (io_Copy (temp_path (Filename b)) (Body resp) w2) as [[err|] w3] eqn:Hcopy.
  { unfold downloadAndPushBeatmap, bind, call_, call, ret. simpl.
    rewrite Hget. simpl. rewrite Hcode. simpl. rewrite Hcreate. simpl.
    by rewrite Hcopy. }
  assert (Hd : downloaded b (world st) resp w3) by (by exists w1, w2).
  rewrite (downloaded_run _ _ _ _ _ _ Hd). cbv zeta.
  destruct (pushAndCleanup _ _ _ _ _) as [r st'] eqn:Hp. simpl. intros ->.
  split; [|eauto].
  eapply pushAndCleanup_panic. by rewrite Hp.
Qed.

Lemma requests_run b serial remoteDir st :
  requests (trace (snd (downloadAndPushBeatmap b serial remoteDir st)))
  = requests (trace st) ++ [fullURL b].
Proof.
  go_unfold. simpl.
  destruct (http_Get _ _) as [[resp|err] w1]; simpl; [|by rewrite requests_snoc].
  destruct (StatusCode resp =? 200); simpl; [|by rewrite !requests_snoc, app_nil_r].
  destruct (os_Create _ _) as [[err|] w2]; simpl;
    [by rewrite !requests_snoc, !app_nil_r|].
  destruct (io_Copy _ _ _) as [[err|] w3]; simpl;
    [by rewrite !requests_snoc, !app_nil_r|].
  destruct (decide (serial = "")); simpl; [by rewrite !requests_snoc, !app_nil_r|].
  destruct (exec_CombinedOutput _ _) as [[out [err|]] w4]; simpl;
    [by rewrite !requests_snoc, !app_nil_r|].
  destruct (os_Remove _ _) as [[err|] w5]; simpl;
    by rewrite !requests_snoc, !app_nil_r.
Qed.

(** With a serial, the loop reaches its end and has requested every
    entry, in order. *)
Lemma syncLoop_completes (missing : list Beatmap) serial st :
  serial ≠ "" →
  fst (Main.syncLoop missing serial st) = Main.Completed ∧
  requests (trace (snd (Main.syncLoop missing serial st)))
  = requests (trace st) ++ (fullURL <$> missing).
Proof.
  intros Hs. revert st. induction missing as [|bm rest IH]; intros st.
  - simpl. by rewrite app_nil_r.
  - pose proof (requests_run bm serial Main.remoteDir st) as Hreq.
    pose proof (panic_inv bm serial Main.remoteDir st) as Hpanic.
    cbn [Main.syncLoop]. unfold bind at 1 3.
    destruct (downloadAndPushBeatmap bm serial Main.remoteDir st) as [r st'].
    simpl in Hreq, Hpanic. rewrite fmap_cons.
    destruct r as [[]|e|].
    + destruct (IH st') as [-> ->]. by rewrite Hreq, <- app_assoc.
    + unfold bind, print, emit. simpl.
      destruct (IH (logged (ErrorProcessing (Filename bm) e) st')) as [E1 E2].
      unfold logged in E1, E2. rewrite E1, E2. simpl.
      by rewrite requests_snoc, app_nil_r, Hreq, <- app_assoc.
    + by destruct Hpanic.
Qed.

Lemma run_trace_prefix b serial remoteDir st :
  trace st `prefix_of` trace (snd (downloadAndPushBeatmap b serial remoteDir st)).
Proof.
  go_unfold. simpl.
  destruct (http_Get _ _) as [[resp|err] w1]; simpl; [|by apply prefix_app_r].
  destruct (StatusCode resp =? 200); simpl; [|by do 2 apply prefix_app_r].
  destruct (os_Create _ _) as [[err|] w2]; simpl; [by do 3 apply prefix_app_r|].
  destruct (io_Copy _ _ _) as [[err|] w3]; simpl; [by do 5 apply prefix_app_r|].
  destruct (decide (serial = "")); simpl; [by do 5 apply prefix_app_r|].
  destruct (exec_CombinedOutput _ _) as [[out [err|]] w4]; simpl;
    [by do 6 apply prefix_app_r|].
  destruct (os_Remove _ _) as [[err|] w5]; simpl.
  - by do 9 apply prefix_app_r.
  - by do 8 apply prefix_app_r.
Qed.

Lemma syncLoop_trace_prefix (missing : list Beatmap) serial st :
  trace st `prefix_of` trace (snd (Main.syncLoop missing serial st)).
Proof.
  revert st. induction missing as [|bm rest IH]; intros st; [done|].
  pose proof (run_trace_prefix bm serial Main.remoteDir st) as Hp.
  cbn [Main.syncLoop]. unfold bind at 1.
  destruct (downloadAndPushBeatmap bm serial Main.remoteDir st) as [r st'].
  simpl in Hp. destruct r as [[]|e|]; [by etrans| |done].
  unfold bind, print, emit. simpl.
  etrans; [exact Hp|]. etrans; [|apply IH]. simpl. by apply prefix_app_r.
Qed.

End SyncFacts.

(** C7. If the download of an entry answers with a status other than 200, or
    its push to the device fails, [downloadAndPushBeatmap] returns an error
    for it; the loop prints that error and goes on with the entries that
    follow exactly as if it had started on them.  With a device serial, as
    [main] always has, the loop runs to its end and requests every entry. *)
Theorem sync_failure_logged_and_skipped {W : Type} `{OS W}
    (bm : Beatmap) (rest : list Beatmap) (serial : string) (st : St W) :
  download_refused bm (world st) ∨ transfer_fails bm serial Main.remoteDir (world st) →
  ∃ e st',
    downloadAndPushBeatmap bm serial Main.remoteDir st = (Err e, st') ∧
    Main.syncLoop (bm :: rest) serial st
      = Main.syncLoop rest serial (logged (ErrorProcessing (Filename bm) e) st') ∧
    Printed (ErrorProcessing (Filename bm) e)
      ∈ trace (snd (Main.syncLoop (bm :: rest) serial st)) ∧
    (serial ≠ "" →
       fst (Main.syncLoop (bm :: rest) serial st) = Main.Completed ∧
       requests (trace (snd (Main.syncLoop (bm :: rest) serial st)))
       = requests (trace st) ++ (fullURL <$> bm :: rest)).
Proof.
  intros Hfail.
  assert (Herr : ∃ e st', downloadAndPushBeatmap bm serial Main.remoteDir st = (Err e, st')).
  { destruct Hfail as [(resp & w1 & Hget & Hcode)|(Hs & resp & w3 & out & err & w4 & Hd & Hpush)].
    - eexists _, _. by apply download_refused_run.
    - rewrite (downloaded_run _ _ _ _ _ _ Hd). cbv zeta.
      unfold pushAndCleanup, bind, call, ret. rewrite decide_False by done.
      simpl. rewrite Hpush. simpl. eauto. }
  destruct Herr as (e & st' & Hrun). exists e, st'.
  assert (Hloop : Main.syncLoop (bm :: rest) serial st
                  = Main.syncLoop rest serial (logged (ErrorProcessing (Filename bm) e) st')).
  { cbn [Main.syncLoop]. unfold bind at 1. rewrite Hrun.
    by unfold bind, print, emit, logged. }
  split; [done|]. split; [done|]. split.
  - rewrite Hloop.
    eapply elem_of_prefix; [|apply syncLoop_trace_prefix].
    unfold logged. simpl. apply elem_of_app. right. by left.
  - intros Hs. by apply syncLoop_completes.
Qed.

(** C8. When download and push have both gone through,
    [downloadAndPushBeatmap] returns nil whatever [os.Remove] answers; a
    failed deletion only adds a warning line to the output. *)
Theorem cleanup_failure_not_propagated {W : Type} `{OS W}
    (b : Beatmap) (serial remoteDir : string) (st : St W)
    (resp : Response) (w3 w4 : W) (output : string) :
  serial ≠ "" →
  downloaded b (world st) resp w3 →
  exec_CombinedOutput (pushCommand serial (temp_path (Filename b)) remoteDir) w3
    = ((output, None), w4) →
  let tmpPath := temp_path (Filename b) in
  let rm := fst (os_Remove tmpPath w4) in
  fst (downloadAndPushBeatmap b serial remoteDir st) = Ok tt ∧
  trace (snd (downloadAndPushBeatmap b serial remoteDir st))
  = trace st
    ++ [Call (Get (fullURL b)); Call (Create tmpPath); Call (Copy tmpPath);
        Call (Exec (pushCommand serial tmpPath remoteDir));
        Printed (Pushed (Filename b) remoteDir); Call (Remove tmpPath)]
    ++ match rm with Some err => [Printed (WarnDelete tmpPath err)] | None => [] end
    ++ [Call (CloseFile tmpPath); Call (CloseBody (fullURL b))].
Proof.
  intros Hs Hd Hpush tmpPath rm. subst tmpPath rm.
  rewrite (downloaded_run _ _ _ _ _ _ Hd). cbv zeta.
  unfold pushAndCleanup, bind, call, print, emit, ret. rewrite decide_False by done.
  simpl. rewrite Hpush. simpl.
  destruct (os_Remove _ w4) as [[err|] w5]; simpl; (split; [done|]);
    by rewrite <- !app_assoc.
Qed.

(** C9. [downloadAndPushBeatmap] panics exactly when the serial is empty and
    the download has gone through: [cmd] is then still nil at
    [cmd.CombinedOutput()].  It is a crash, not a returned error, and with a
    non-empty serial it cannot happen. *)
Theorem empty_serial_crashes {W : Type} `{OS W}
    (b : Beatmap) (serial remoteDir : string) (st : St W) :
  (fst (downloadAndPushBeatmap b serial remoteDir st) = Panic ↔
     serial = "" ∧ ∃ resp w3, downloaded b (world st) resp w3) ∧
  (serial ≠ "" → fst (downloadAndPushBeatmap b serial remoteDir st) ≠ Panic).
Proof.
  assert (Hiff : fst (downloadAndPushBeatmap b serial remoteDir st) = Panic ↔
                 serial = "" ∧ ∃ resp w3, downloaded b (world st) resp w3).
  { split; [apply panic_inv|].
    intros (-> & resp & w3 & Hd). by rewrite (downloaded_run _ _ _ _ _ _ Hd). }
  split; [done|]. intros Hs Hp. apply Hiff in Hp as [? _]. done.
Qed.

(** ** The theorems at work in the simulated world *)

Section Examples.
Local Existing Instance Sim.os.

Lemma sync_failure_logged_and_skipped_witness :
  ∃ e st',
    downloadAndPushBeatmap Sim.gone "1WMHH000X" Main.remoteDir (Sim.init []) = (Err e, st') ∧
    Main.syncLoop [Sim.gone; Sim.b] "1WMHH000X" (Sim.init [])
      = Main.syncLoop [Sim.b] "1WMHH000X" (logged (ErrorProcessing "gone.synth" e) st') ∧
    Printed (ErrorProcessing "gone.synth" e)
      ∈ trace (snd (Main.syncLoop [Sim.gone; Sim.b] "1WMHH000X" (Sim.init []))) ∧
    ("1WMHH000X" ≠ "" →
       fst (Main.syncLoop [Sim.gone; Sim.b] "1WMHH000X" (Sim.init [])) = Main.Completed ∧
       requests (trace (snd (Main.syncLoop [Sim.gone; Sim.b] "1WMHH000X" (Sim.init []))))
       = [] ++ (fullURL <$> [Sim.gone; Sim.b])).
Proof.
  apply (sync_failure_logged_and_skipped Sim.gone [Sim.b] "1WMHH000X" (Sim.init [])).
  left. exists (mkResp 404 "404 Not Found" ""), (world (Sim.init [])).
  split; [reflexivity | simpl; lia].
Defined.

Lemma cleanup_failure_not_propagated_witness :
  fst (downloadAndPushBeatmap Sim.c "1WMHH000X" Main.remoteDir (Sim.init [])) = Ok tt ∧
  Printed (WarnDelete "/tmp/c.synth" "permission denied")
    ∈ trace (snd (downloadAndPushBeatmap Sim.c "1WMHH000X" Main.remoteDir (Sim.init []))).
Proof.
  edestruct (cleanup_failure_not_propagated Sim.c "1WMHH000X" Main.remoteDir (Sim.init []))
    as [Hok Htrace].
  - vm_compute. congruence.
  - eexists _, _. repeat split; reflexivity.
  - reflexivity.
  - split; [exact Hok|]. rewrite Htrace. vm_compute.
    do 6 right. left.
Defined.

Lemma empty_serial_crashes_witness :
  fst (downloadAndPushBeatmap Sim.b "" Main.remoteDir (Sim.init [])) = Panic.
Proof.
  apply (empty_serial_crashes Sim.b "" Main.remoteDir (Sim.init [])).
  split; [reflexivity|].
  eexists _, _, _, _. repeat split; reflexivity.
Defined.

Lemma selectDevice_spec_witness :
  ∃ d, [Sim.quest; Sim.pico] !! Z.to_nat (2 - 1) = Some d ∧
       fst (selectDevice [Sim.quest; Sim.pico] (Sim.init [Some 2])) = Ok (Serial d).
Proof.
  apply (selectDevice_spec [Sim.quest; Sim.pico] (Sim.init [Some 2])).
  - reflexivity.
  - simpl. lia.
Defined.

Example selectDevice_out_of_range :
  fst (selectDevice [Sim.quest; Sim.pico] (Sim.init [Some 3])) = Err InvalidChoice
  ∧ fst (selectDevice [Sim.quest; Sim.pico] (Sim.init [None])) = Err InvalidChoice
  ∧ fst (selectDevice [] (Sim.init [Some 1])) = Err NoDevicesFound.
Proof. repeat split; reflexivity. Qed.

Example syncLoop_trace :
  trace (snd (Main.syncLoop [Sim.gone; Sim.b] "1WMHH000X" (Sim.init [])))
  = [ Call (Get "https://synthriderz.com/dl/gone");
      Call (CloseBody "https://synthriderz.com/dl/gone");
      Printed (ErrorProcessing "gone.synth"
                 (DownloadFailedStatus "gone.synth" "404 Not Found"));
      Call (Get "https://synthriderz.com/dl/b");
      Call (Create "/tmp/b.synth");
      Call (Copy "/tmp/b.synth");
      Call (Exec ["adb"; "-s"; "1WMHH000X"; "push"; "/tmp/b.synth";
                  "/sdcard/SynthRidersUC/CustomSongs/"]);
      Printed (Pushed "b.synth" "/sdcard/SynthRidersUC/CustomSongs/");
      Call (Remove "/tmp/b.synth");
      Call (CloseFile "/tmp/b.synth");
      Call (CloseBody "https://synthriderz.com/dl/b") ].
Proof. vm_compute. reflexivity. Qed.

Example syncLoop_offline :
  fst (Main.syncLoop [Sim.b; Sim.c] "offline" (Sim.init [])) = Main.Completed ∧
  Printed (ErrorProcessing "b.synth" (AdbPushFailed "exit status 1" "adb: device offline"))
    ∈ trace (snd (Main.syncLoop [Sim.b; Sim.c] "offline" (Sim.init []))).
Proof. split; [reflexivity|]. vm_compute. do 6 right. left. Qed.

End Examples.

(** ** Concurrent fetch *)

Lemma Return_Permutation_inv {A} (l l' : list A) :
  Return <$> l ≡ₚ Return <$> l' → l ≡ₚ l'.
Proof.
  intros Hp. apply Permutation_map_inv in Hp as (l3 & E & Hp).
  assert (Inj eq eq (@Return A)) by (by intros ?? [=]).
  change (map Return l3) with (Return <$> l3) in E.
  apply (inj (fmap Return)) in E. by subst.
Qed.

(** *** Machine integers and the size check *)

Lemma wrap_int_small (z : Z) : int_min ≤ z ≤ int_max → wrap_int z = z.
Proof.
  unfold wrap_int, int_min, int_max. intros Hz.
  rewrite Z.mod_small; lia.
Qed.

Lemma wrap_int32_small (z : Z) : - 2 ^ 31 ≤ z ≤ int32_max → wrap_int32 z = z.
Proof.
  unfold wrap_int32, int32_max. intros Hz.
  rewrite Z.mod_small; lia.
Qed.

Lemma wrap_int32_Add (v : Z) :
  0 ≤ v ≤ int32_max →
  (wrap_int32 (v + 1) <? 0) = false →
  wrap_int32 (v + 1) = v + 1 ∧ v + 1 ≤ int32_max.
Proof.
  intros Hv Hpos. destruct (decide (v = int32_max)) as [->|Hne].
  - exfalso. vm_compute in Hpos. discriminate.
  - rewrite wrap_int32_small by (unfold int32_max in *; lia). lia.
Qed.

Lemma makechan_ok_range (N : Z) : makechan_ok N = true → 0 ≤ N < int_max.
Proof.
  unfold makechan_ok, sizeof_BeatmapPage, maxAlloc, hchanSize, int_max.
  intros [H1 H2]%andb_true_iff. lia.
Qed.

Lemma makechan_ok_small (N : Z) : 0 ≤ N ≤ int32_max → makechan_ok N = true.
Proof.
  unfold makechan_ok, sizeof_BeatmapPage, maxAlloc, hchanSize, int32_max.
  intros HN. apply andb_true_iff. lia.
Qed.

(** The largest channel that [make] accepts holds 5026338869831 pages,
    with a header of 96 bytes as with one of 104. *)
Lemma makechan_ok_iff (size : Z) :
  makechan_ok size = true ↔ 0 ≤ size ≤ 5026338869831.
Proof.
  unfold makechan_ok, sizeof_BeatmapPage, maxAlloc, hchanSize.
  rewrite andb_true_iff, !Z.leb_le. lia.
Qed.

Lemma makechan_header_104 (size : Z) :
  makechan_ok size = (0 <=? size) && (sizeof_BeatmapPage * size <=? maxAlloc - 104).
Proof.
  unfold makechan_ok, sizeof_BeatmapPage, maxAlloc, hchanSize.
  destruct (0 <=? size); [|done]. simpl.
  destruct (56 * size <=? 2 ^ 48 - 96) eqn:E1, (56 * size <=? 2 ^ 48 - 104) eqn:E2;
    try done; lia.
Qed.

Lemma makechan_not_ok (N : Z) : makechan_ok N = false → N < 0 ∨ int32_max < N.
Proof.
  intros Hno. destruct (decide (0 ≤ N ≤ int32_max)) as [HN|HN]; [|lia].
  by rewrite makechan_ok_small in Hno.
Qed.

(** *** Sums over the pool *)

Lemma sum_with_delete (f : goroutine → nat) (pool : list goroutine)
    (i : nat) (g : goroutine) :
  pool !! i = Some g →
  (sum_list_with f (delete i pool) + f g = sum_list_with f pool)%nat.
Proof.
  intros (l1 & l2 & -> & ->)%list_elem_of_split_length.
  rewrite delete_middle, !sum_list_with_app. simpl. lia.
Qed.

Lemma sum_with_insert (f : goroutine → nat) (pool : list goroutine)
    (i : nat) (g g' : goroutine) :
  pool !! i = Some g →
  (sum_list_with f (<[i := g']> pool) + f g = sum_list_with f pool + f g')%nat.
Proof.
  intros (l1 & l2 & -> & ->)%list_elem_of_split_length.
  replace (length l1) with (length l1 + 0)%nat by lia.
  rewrite insert_app_r. simpl.
  rewrite !sum_list_with_app. simpl. lia.
Qed.

Section FanOut.
Context `{CatalogServer}.

Lemma fetchPage_fatal_iff (page : Z) :
  fetch_fails page ↔ ∃ f, fetchPage page = LogFatal f.
Proof.
  unfold fetch_fails, fetchPage. cbv zeta.
  destruct (client_Get (pageURL page)) as [body|err].
  - destruct (json_Decode body) as [pg|err] eqn:Hdec.
    + split; [|by intros [? ?]].
      intros [[? ?]|(body' & err & [= <-] & ?)]; congruence.
    + split; [eauto|]. intros _. right. eauto.
  - split; [eauto|]. intros _. left. eauto.
Qed.

(** *** The steps still to take go down with every step *)

Lemma step_decreases (N : Z) (c : choice) (s s' : orch) :
  1 ≤ pageNum s → N < int_max →
  step N c s = Some (Running s') →
  (remaining N s' < remaining N s)%nat.
Proof.
  intros Hlo HN. unfold remaining, step. destruct c as [|i].
  - destruct (pageNum s <=? N) eqn:E.
    + cbv zeta. destruct (wrap_int32 (wg s + 1) <? 0); [done|].
      intros [= <-]. simpl.
      rewrite wrap_int_small by (unfold int_min, int_max in *; lia).
      rewrite sum_list_with_app. simpl. lia.
    + by destruct (wg s =? 0).
  - destruct (pool s !! i) as [[page|pg|]|] eqn:Hi; [| | |done].
    + destruct (fetchPage page) as [pg|]; [|done]. intros [= <-]. simpl.
      pose proof (sum_with_insert weight _ _ _ (AtSend pg) Hi). simpl in *. lia.
    + destruct (_ <? N); [|done]. intros [= <-]. simpl.
      pose proof (sum_with_insert weight _ _ _ AtDone Hi). simpl in *. lia.
    + cbv zeta. destruct (wrap_int32 (wg s - 1) <? 0); [done|].
      intros [= <-]. simpl.
      pose proof (sum_with_delete weight _ _ _ Hi). simpl in *. lia.
Qed.

(** An invariant under which some step is always enabled, and which
    every step either keeps or leaves for a state where [Q] holds,
    makes [Q] inevitable. *)
Lemma inevitably_by_invariant (N : Z) (Inv : orch → Prop) (Q : status → Prop) :
  N < int_max →
  (∀ s, Inv s → 1 ≤ pageNum s) →
  (∀ s, Inv s → ∃ c st', step N c s = Some st') →
  (∀ s c st', Inv s → step N c s = Some st' →
     Q st' ∨ ∃ s', st' = Running s' ∧ Inv s') →
  ∀ s, Inv s → inevitably N Q (Running s).
Proof.
  intros HN Hlo Hprogress Hkeep s.
  remember (remaining N s) as n eqn:Hn. revert s Hn.
  induction (lt_wf n) as [n _ IH]. intros s -> Hinv.
  apply inev_later; [by apply Hprogress|].
  intros c st' Hstep.
  destruct (Hkeep s c st' Hinv Hstep) as [HQ|(s' & -> & Hinv')]; [by apply inev_now|].
  eapply IH; [|done|done].
  eapply step_decreases; [by apply Hlo|done|done].
Qed.

Lemma inevitably_reaches (N : Z) (Q : status → Prop) (st st' : status) :
  inevitably N Q st → reaches N st st' →
  (∀ s, ¬ Q (Running s)) →
  (∀ s, st' ≠ Running s) → Q st'.
Proof.
  intros Hinev Hreach HQ. induction Hreach as [st|c s st1 st2 Hstep _ IH].
  - intros Hfinal. destruct Hinev as [st HQst|s _ _]; [done|]. by destruct (Hfinal s).
  - inversion Hinev as [? HQs|? _ Hall]; subst; [by destruct (HQ s)|].
    apply IH. by eapply Hall.
Qed.

Lemma inevitably_witness (N : Z) (Q : status → Prop) (st : status) :
  inevitably N Q st → ∃ st', reaches N st st' ∧ Q st'.
Proof.
  induction 1 as [st HQ|s [c [st1 Hstep]] _ IH].
  - exists st. split; [constructor | done].
  - destruct (IH c st1 Hstep) as (st' & Hreach & HQ).
    exists st'. split; [by econstructor | done].
Qed.

Lemma inevitably_mono (N : Z) (Q Q' : status → Prop) (st : status) :
  (∀ st', Q st' → Q' st') → inevitably N Q st → inevitably N Q' st.
Proof.
  intros HQ. induction 1 as [st Hst|s Hex _ IH].
  - apply inev_now. by apply HQ.
  - by apply inev_later.
Qed.

Lemma run_reaches (N : Z) (sched : list choice) (st : status) :
  reaches N st (run N sched st).
Proof.
  revert st. induction sched as [|c sched IH]; intros st.
  - destruct st; constructor.
  - destruct st as [s| | |]; simpl; try constructor.
    destruct (step N c s) as [st'|] eqn:Hstep; [by econstructor | apply IH].
Qed.

Lemma reaches_snoc (N : Z) (st : status) (s : orch) (c : choice) (st' : status) :
  reaches N st (Running s) → step N c s = Some st' → reaches N st st'.
Proof.
  intros Hreach Hstep. remember (Running s) as mid eqn:Hmid.
  induction Hreach as [st|c0 s0 st1 st2 Hstep0 _ IH].
  - subst st. econstructor; [exact Hstep | constructor].
  - econstructor; [exact Hstep0 | by apply IH].
Qed.

(** *** The loop variable, the counter and the channel *)

Lemma chan_inv_start (N : Z) (s : orch) : start N = Running s → chan_inv N s.
Proof.
  unfold start. destruct (makechan_ok N) eqn:E; [|done]. intros [= <-].
  apply makechan_ok_range in E. unfold chan_inv, int32_max. simpl. lia.
Qed.

Lemma chan_inv_keep (N : Z) (c : choice) (s s' : orch) :
  N < int_max → chan_inv N s → step N c s = Some (Running s') → chan_inv N s'.
Proof.
  intros HN ((Hlo & Hhi) & Hwg & Hmax & Hpool & Hlen). unfold step, chan_inv.
  destruct c as [|i].
  - destruct (pageNum s <=? N) eqn:E.
    + cbv zeta. destruct (wrap_int32 (wg s + 1) <? 0) eqn:Ev; [done|].
      intros [= <-]. simpl.
      destruct (wrap_int32_Add (wg s)) as [-> ?]; [lia|done|].
      rewrite wrap_int_small by (unfold int_min, int_max in *; lia).
      rewrite length_app, sum_list_with_app. simpl. lia.
    + by destruct (wg s =? 0).
  - destruct (pool s !! i) as [[page|pg|]|] eqn:Hi; [| | |done].
    + destruct (fetchPage page) as [pg|]; [|done]. intros [= <-]. simpl.
      pose proof (sum_with_insert unsent _ _ _ (AtSend pg) Hi).
      rewrite length_insert. simpl in *. lia.
    + destruct (_ <? N); [|done]. intros [= <-]. simpl.
      pose proof (sum_with_insert unsent _ _ _ AtDone Hi).
      rewrite length_insert, length_app. simpl in *. lia.
    + cbv zeta. destruct (wrap_int32 (wg s - 1) <? 0) eqn:Ev; [done|].
      intros [= <-]. simpl.
      pose proof (sum_with_delete unsent _ _ _ Hi).
      pose proof (lookup_lt_Some _ _ _ Hi).
      rewrite wrap_int32_small by (unfold int32_max in *; lia).
      rewrite length_delete by eauto. simpl in *. lia.
Qed.

(** The counter overflows only with more than [int32_max] pages, and
    [wg.Done()] never takes it below zero. *)
Lemma chan_inv_panic (N : Z) (c : choice) (s : orch) :
  chan_inv N s → step N c s = Some Panicked → int32_max < N.
Proof.
  intros ((Hlo & Hhi) & Hwg & Hmax & Hpool & Hlen). unfold step.
  destruct c as [|i].
  - destruct (pageNum s <=? N) eqn:E.
    + cbv zeta. destruct (wrap_int32 (wg s + 1) <? 0) eqn:Ev.
      * intros _. destruct (decide (wg s = int32_max)) as [Hw|Hw]; [lia|].
        rewrite wrap_int32_small in Ev by (unfold int32_max in *; lia). lia.
      * done.
    + by destruct (wg s =? 0).
  - destruct (pool s !! i) as [[page|pg|]|] eqn:Hi; [| | |done].
    + by destruct (fetchPage page).
    + by destruct (_ <? N).
    + cbv zeta. destruct (wrap_int32 (wg s - 1) <? 0) eqn:Ev; [|done].
      pose proof (lookup_lt_Some _ _ _ Hi).
      rewrite wrap_int32_small in Ev by (unfold int32_max in *; lia). lia.
Qed.

Lemma chan_inv_send (N : Z) (s : orch) (i : nat) (pg : BeatmapPage) :
  chan_inv N s → pool s !! i = Some (AtSend pg) →
  Z.of_nat (length (results s)) < N.
Proof.
  intros ((Hlo & Hhi) & Hwg & Hmax & Hpool & Hlen) Hi.
  pose proof (sum_list_with_in _ unsent _ (list_elem_of_lookup_2 _ _ _ Hi)).
  simpl in *. lia.
Qed.

Lemma chan_inv_progress (N : Z) (s : orch) :
  chan_inv N s → ∃ c st', step N c s = Some st'.
Proof.
  intros Hinv. pose proof Hinv as ((Hlo & Hhi) & Hwg & Hmax & Hpool & Hlen).
  destruct (decide (pageNum s ≤ N)) as [Hle|Hgt].
  { exists MainThread. unfold step.
    destruct (pageNum s <=? N) eqn:E; [|lia]. cbv zeta.
    destruct (wrap_int32 (wg s + 1) <? 0); eauto. }
  destruct (pool s) as [|g gs] eqn:Hpool0.
  { exists MainThread. unfold step.
    destruct (pageNum s <=? N) eqn:E; [lia|].
    simpl in Hwg. destruct (wg s =? 0) eqn:E0; [eauto | lia]. }
  exists (Go 0). unfold step. rewrite Hpool0. simpl. destruct g as [page|pg|].
  - destruct (fetchPage page); eauto.
  - assert (Hs : Z.of_nat (length (results s)) < N).
    { apply (chan_inv_send N s 0 pg Hinv). by rewrite Hpool0. }
    destruct (Z.of_nat (length (results s)) <? N) eqn:E; [eauto | lia].
  - cbv zeta. destruct (wrap_int32 (wg s - 1) <? 0); eauto.
Qed.

Lemma chan_inv_reaches (N : Z) (st st' : status) :
  N < int_max → reaches N st st' →
  (∀ s, st = Running s → chan_inv N s) →
  ∀ s', st' = Running s' → chan_inv N s'.
Proof.
  intros HN Hreach. induction Hreach as [st|c s st1 st2 Hstep _ IH]; [done|].
  intros Hinv. apply IH. intros s1 ->.
  eapply chan_inv_keep; [done| |done]. by apply Hinv.
Qed.

(** A process that panics has met a page count that is out of range for
    the channel or for the counter. *)
Lemma panicked_from (N : Z) (st st' : status) :
  N < int_max → reaches N st st' →
  (∀ s, st = Running s → chan_inv N s) →
  st' = Panicked → st = Panicked ∨ int32_max < N.
Proof.
  intros HN Hreach. induction Hreach as [st|c s st1 st2 Hstep _ IH]; [by left|].
  intros Hinv Hgoal. right. destruct IH as [->|?]; [|done| |done].
  - intros s1 ->. eapply chan_inv_keep; [done| |done]. by apply Hinv.
  - eapply chan_inv_panic; [|done]. by apply Hinv.
Qed.

Lemma reaches_panicked (N : Z) :
  reaches N (start N) Panicked → N < 0 ∨ int32_max < N.
Proof.
  intros Hreach. destruct (makechan_ok N) eqn:Hok.
  2: { by apply makechan_not_ok. }
  right. pose proof (makechan_ok_range N Hok) as [_ HN].
  destruct (panicked_from N _ _ HN Hreach) as [Hstart|?]; [apply chan_inv_start|done| |done].
  unfold start in Hstart. by rewrite Hok in Hstart.
Qed.

Lemma reaches_exited (N : Z) (st st' : status) (f : fatal) :
  reaches N st st' → st' = Exited f →
  st = Exited f ∨ ∃ page, fetchPage page = LogFatal f.
Proof.
  intros Hreach. induction Hreach as [st|c s st1 st2 Hstep _ IH]; [by left|].
  intros Hgoal. right. destruct (IH Hgoal) as [->|?]; [|done].
  unfold step in Hstep. destruct c as [|i].
  - destruct (pageNum s <=? N).
    + cbv zeta in Hstep. by destruct (wrap_int32 (wg s + 1) <? 0).
    + by destruct (wg s =? 0).
  - destruct (pool s !! i) as [[page|pg|]|]; [| | |done].
    + destruct (fetchPage page) as [pg|f'] eqn:Hfetch; [done|].
      injection Hstep as ->. by exists page.
    + by destruct (_ <? N).
    + cbv zeta in Hstep. by destruct (wrap_int32 (wg s - 1) <? 0).
Qed.

(** *** All fetches succeed *)

Lemma fetched_lookup (N : Z) (pages : list BeatmapPage) (i : Z) :
  fetched N pages → 1 ≤ i ≤ N →
  ∃ pg, pages !! Z.to_nat (i - 1) = Some pg ∧ fetchPage i = Return pg.
Proof.
  intros Hf Hi.
  destruct (Forall2_lookup_l _ _ _ (Z.to_nat (i - 1)) i Hf) as (pg & Hpg & Hfetch).
  { rewrite lookup_seqZ_lt by lia. f_equal. lia. }
  eauto.
Qed.

Lemma fetched_length (N : Z) (pages : list BeatmapPage) :
  fetched N pages → length pages = Z.to_nat N.
Proof. intros Hf. by rewrite <- (Forall2_length _ _ _ Hf), length_seqZ. Qed.

Lemma fetched_replicate (pg : BeatmapPage) (n : nat) :
  (∀ page, fetchPage page = Return pg) → fetched (Z.of_nat n) (replicate n pg).
Proof.
  intros Hall. unfold fetched. induction n as [|n IH]; [constructor|].
  rewrite seqZ_S, replicate_S_end. apply Forall2_app; [done|].
  by apply Forall2_cons.
Qed.

Lemma owes_app (l1 l2 : list goroutine) : owes (l1 ++ l2) = owes l1 ++ owes l2.
Proof. unfold owes. by rewrite fmap_app, concat_app. Qed.

Lemma owes_at (pool : list goroutine) (i : nat) (g : goroutine) :
  pool !! i = Some g →
  ∃ a b, owes pool = a ++ owed g ++ b ∧
         (∀ g', owes (<[i := g']> pool) = a ++ owed g' ++ b) ∧
         owes (delete i pool) = a ++ b.
Proof.
  intros (l1 & l2 & -> & ->)%list_elem_of_split_length.
  exists (owes l1), (owes l2). split; [|split].
  - by rewrite owes_app.
  - intros g'. replace (length l1) with (length l1 + 0)%nat by lia.
    rewrite insert_app_r. simpl. by rewrite owes_app.
  - by rewrite delete_middle, owes_app.
Qed.

Lemma fan_inv_progress (N : Z) (pages : list BeatmapPage) (s : orch) :
  fan_inv N pages s → ∃ c st', step N c s = Some st'.
Proof. intros [Hinv _]. by apply chan_inv_progress. Qed.

Lemma fan_inv_keep (N : Z) (pages : list BeatmapPage) (s : orch)
    (c : choice) (st' : status) :
  N < int_max → fetched N pages → fan_inv N pages s →
  step N c s = Some st' →
  returned_all pages st' ∨ (st' = Panicked ∧ int32_max < N) ∨
  ∃ s', st' = Running s' ∧ fan_inv N pages s'.
Proof.
  intros HN Hf [Hinv Hperm] Hstep.
  destruct st' as [s'|allPages|f|].
  - right. right. exists s'. split; [done|].
    split; [by eapply chan_inv_keep|].
    destruct Hinv as ((Hlo & Hhi) & Hwg & Hmax & Hpool & Hlen).
    unfold step in Hstep. destruct c as [|i].
    + destruct (pageNum s <=? N) eqn:E; [|by destruct (wg s =? 0)].
      cbv zeta in Hstep. destruct (wrap_int32 (wg s + 1) <? 0); [done|].
      injection Hstep as <-. simpl.
      destruct (fetched_lookup N pages (pageNum s) Hf) as (pg & Hpg & Hfetch); [lia|].
      rewrite wrap_int_small by (unfold int_min, int_max in *; lia).
      replace (Z.to_nat (pageNum s + 1 - 1)) with (S (Z.to_nat (pageNum s - 1))) by lia.
      rewrite (take_S_r _ _ _ Hpg), fmap_app, <- Hperm, owes_app.
      unfold owes at 2. simpl. rewrite Hfetch.
      rewrite <- !app_assoc. apply Permutation_app_head. simpl.
      apply Permutation_cons_append.
    + destruct (pool s !! i) as [[page|pg|]|] eqn:Hi; [| | |done].
      * destruct (owes_at _ _ _ Hi) as (a & b & Ho & Hins & _).
        destruct (fetchPage page) as [pg|] eqn:Hfetch; [|done].
        injection Hstep as <-. simpl.
        rewrite Hins. simpl. rewrite <- Hfetch, <- Hperm. by rewrite Ho.
      * destruct (owes_at _ _ _ Hi) as (a & b & Ho & Hins & _).
        destruct (_ <? N); [|done]. injection Hstep as <-. simpl.
        rewrite Hins, fmap_app, <- Hperm, Ho. simpl.
        rewrite <- !app_assoc. apply Permutation_app_head. simpl.
        rewrite app_assoc. symmetry. apply Permutation_cons_append.
      * destruct (owes_at _ _ _ Hi) as (a & b & Ho & _ & Hdel).
        cbv zeta in Hstep. destruct (wrap_int32 (wg s - 1) <? 0); [done|].
        injection Hstep as <-. simpl.
        by rewrite Hdel, <- Hperm, Ho.
  - left. exists allPages. split; [done|].
    destruct Hinv as ((Hlo & Hhi) & Hwg & Hmax & Hpool & Hlen).
    unfold step in Hstep. destruct c as [|i].
    + destruct (pageNum s <=? N) eqn:E.
      { cbv zeta in Hstep. by destruct (wrap_int32 (wg s + 1) <? 0). }
      destruct (wg s =? 0) eqn:E0; [|done]. injection Hstep as <-.
      assert (pool s = []) as Hnil by (apply length_zero_iff_nil; lia).
      rewrite Hnil in Hperm. simpl in Hperm.
      apply Return_Permutation_inv in Hperm. rewrite Hperm.
      rewrite take_ge; [done|]. rewrite (fetched_length N pages Hf). lia.
    + destruct (pool s !! i) as [[page|pg|]|]; [| | |done].
      * by destruct (fetchPage page).
      * by destruct (_ <? N).
      * cbv zeta in Hstep. by destruct (wrap_int32 (wg s - 1) <? 0).
  - exfalso. unfold step in Hstep. destruct c as [|i].
    + destruct (pageNum s <=? N).
      { cbv zeta in Hstep. by destruct (wrap_int32 (wg s + 1) <? 0). }
      by destruct (wg s =? 0).
    + destruct (pool s !! i) as [[page|pg|]|] eqn:Hi; [| | |done].
      * destruct (owes_at _ _ _ Hi) as (a & b & Ho & _).
        destruct (fetchPage page) as [|f'] eqn:Hfetch; [done|].
        assert (Hin : LogFatal f' ∈ Return <$> take (Z.to_nat (pageNum s - 1)) pages).
        { rewrite <- Hperm, Ho. simpl. rewrite Hfetch.
          apply elem_of_app. left. apply elem_of_app. right. by left. }
        by apply list_elem_of_fmap in Hin as (? & ? & _).
      * by destruct (_ <? N).
      * cbv zeta in Hstep. by destruct (wrap_int32 (wg s - 1) <? 0).
  - right. left. split; [done|]. by eapply chan_inv_panic.
Qed.

Lemma fan_inv_start (N : Z) (pages : list BeatmapPage) (s : orch) :
  start N = Running s → fan_inv N pages s.
Proof.
  intros Hstart. split; [by apply chan_inv_start|].
  unfold start in Hstart. destruct (makechan_ok N); [|done].
  by injection Hstart as <-.
Qed.

(** Whatever a call returns when all fetches succeed is a permutation of
    the pages. *)
Lemma fan_inv_returned (N : Z) (pages : list BeatmapPage) (st st' : status) :
  N < int_max → fetched N pages → reaches N st st' →
  (∀ s, st = Running s → fan_inv N pages s) →
  ∀ allPages, st' = Returned allPages →
  st = Returned allPages ∨ allPages ≡ₚ pages.
Proof.
  intros HN Hf Hreach. induction Hreach as [st|c s st1 st2 Hstep Hrest IH]; [by left|].
  intros Hinv allPages Hgoal. right.
  destruct (fan_inv_keep N pages s c st1 HN Hf (Hinv s eq_refl) Hstep)
    as [(l & -> & Hl)|[[-> _]|(s' & -> & Hinv')]].
  - inversion Hrest; by simplify_eq.
  - inversion Hrest; by simplify_eq.
  - assert (Hinv1 : ∀ s1, Running s' = Running s1 → fan_inv N pages s1)
      by (by intros s1 [= <-]).
    by destruct (IH Hinv1 allPages Hgoal).
Qed.

(** *** One fetch is going to fail *)

Lemma doomed_progress (N p : Z) (f : fatal) (s : orch) :
  doomed_inv N p s → ∃ c st', step N c s = Some st'.
Proof. intros [Hinv _]. by apply chan_inv_progress. Qed.

Lemma doomed_keep (N p : Z) (f : fatal) (s : orch) (c : choice) (st' : status) :
  fetchPage p = LogFatal f → p ≤ N < int_max →
  doomed_inv N p s →
  step N c s = Some st' →
  exited st' ∨ (st' = Panicked ∧ int32_max < N) ∨
  ∃ s', st' = Running s' ∧ doomed_inv N p s'.
Proof.
  intros Hp [HpN HN] [Hinv Hwhere] Hstep.
  destruct st' as [s'|allPages|f'|].
  - right. right. exists s'. split; [done|].
    split; [by eapply chan_inv_keep|].
    destruct Hinv as ((Hlo & Hhi) & Hwg & Hmax & Hpool & Hlen).
    unfold step in Hstep. destruct c as [|i].
    + destruct (pageNum s <=? N) eqn:E; [|by destruct (wg s =? 0)].
      cbv zeta in Hstep. destruct (wrap_int32 (wg s + 1) <? 0); [done|].
      injection Hstep as <-. simpl.
      rewrite wrap_int_small by (unfold int_min, int_max in *; lia).
      destruct Hwhere as [Hle|Hin].
      * destruct (decide (pageNum s = p)) as [->|Hne]; [|left; lia].
        right. apply elem_of_app. right. by left.
      * right. apply elem_of_app. by left.
    + assert (Hother : ∀ g g', pool s !! i = Some g → g ≠ AtFetch p →
                AtFetch p ∈ pool s → AtFetch p ∈ <[i := g']> (pool s)).
      { intros g g' Hi Hne Hin. apply list_elem_of_lookup in Hin as [j Hj].
        apply list_elem_of_lookup. exists j.
        rewrite list_lookup_insert_ne; [done|]. intros ->. congruence. }
      destruct (pool s !! i) as [[page|pg|]|] eqn:Hi; [| | |done].
      * destruct (fetchPage page) as [pg|] eqn:Hfetch; [|done].
        injection Hstep as <-. simpl.
        destruct Hwhere as [?|Hin]; [by left|right].
        apply (Hother (AtFetch page)); [done| |done]. congruence.
      * destruct (_ <? N); [|done]. injection Hstep as <-. simpl.
        destruct Hwhere as [?|Hin]; [by left|right].
        by apply (Hother (AtSend pg)).
      * cbv zeta in Hstep. destruct (wrap_int32 (wg s - 1) <? 0); [done|].
        injection Hstep as <-. simpl.
        destruct Hwhere as [?|Hin]; [by left|right].
        apply (delete_Permutation _ _ _) in Hi.
        rewrite Hi in Hin. by apply elem_of_cons in Hin as [?|?].
  - exfalso. destruct Hinv as ((Hlo & Hhi) & Hwg & Hmax & Hpool & Hlen).
    unfold step in Hstep. destruct c as [|i].
    + destruct (pageNum s <=? N) eqn:E.
      { cbv zeta in Hstep. by destruct (wrap_int32 (wg s + 1) <? 0). }
      destruct Hwhere as [?|Hin]; [lia|].
      destruct (wg s =? 0) eqn:E0; [|done].
      assert (pool s = []) as Hnil by (apply length_zero_iff_nil; lia).
      rewrite Hnil in Hin. by apply elem_of_nil in Hin.
    + destruct (pool s !! i) as [[page|pg|]|]; [| | |done].
      * by destruct (fetchPage page).
      * by destruct (_ <? N).
      * cbv zeta in Hstep. by destruct (wrap_int32 (wg s - 1) <? 0).
  - left. by exists f'.
  - right. left. split; [done|]. by eapply chan_inv_panic.
Qed.

(** *** Spawning every goroutine before any of them runs *)

Lemma spawn_all (N : Z) (n : nat) :
  makechan_ok N = true → Z.of_nat n ≤ N → Z.of_nat n ≤ int32_max →
  reaches N (start N)
    (Running {| pageNum := Z.of_nat n + 1; wg := Z.of_nat n;
                pool := AtFetch <$> seqZ 1 (Z.of_nat n); results := [] |}).
Proof.
  intros Hok. pose proof (makechan_ok_range N Hok) as [_ HN].
  induction n as [|n IH]; intros HnN Hn32.
  - unfold start. rewrite Hok. constructor.
  - eapply (reaches_snoc N _ _ MainThread); [apply IH; lia|].
    unfold step. cbn [pageNum wg pool results].
    destruct (Z.of_nat n + 1 <=? N) eqn:E; [|lia]. cbv zeta.
    rewrite wrap_int32_small by (unfold int32_max in *; lia).
    destruct (Z.of_nat n + 1 <? 0) eqn:E0; [lia|].
    rewrite wrap_int_small by (unfold int_min, int_max in *; lia).
    rewrite seqZ_S, fmap_app. simpl. rewrite (Z.add_comm 1).
    replace (Z.of_nat (S n)) with (Z.of_nat n + 1) by lia.
    reflexivity.
Qed.

(** With one goroutine more than the counter can count, [wg.Add] panics. *)
Lemma spawn_overflow (N : Z) :
  makechan_ok N = true → int32_max < N → reaches N (start N) Panicked.
Proof.
  intros Hok HN.
  pose proof (spawn_all N (Z.to_nat int32_max) Hok) as Hall.
  rewrite Z2Nat.id in Hall by (unfold int32_max; lia).
  eapply (reaches_snoc N _ _ MainThread); [apply Hall; lia|].
  unfold step. cbn [pageNum wg].
  destruct (int32_max + 1 <=? N) eqn:E; [|lia]. reflexivity.
Qed.

End FanOut.

(** C1. For a page count [N] with [1 ≤ N < 2^31], when the pages
    [1..N] can all be fetched, every execution of
    [fetchAllPagesConcurrently(N)], whatever the scheduling of its
    goroutines, ends by returning; what it returns is a permutation of the
    pages [fetchPage(1)], ..., [fetchPage(N)], hence exactly [N] pages. *)
Theorem fetchAll_returns_every_page `{CatalogServer} (N : Z) (pages : list BeatmapPage) :
  1 ≤ N ≤ int32_max →
  fetched N pages →
  inevitably N (returned_all pages) (start N) ∧
  (∃ allPages, fetchAllPagesConcurrently N allPages) ∧
  (∀ allPages, fetchAllPagesConcurrently N allPages →
     allPages ≡ₚ pages ∧ Z.of_nat (length allPages) = N) ∧
  (∀ sched st, run N sched (start N) = st → (∀ s, st ≠ Running s) →
     returned_all pages st).
Proof.
  intros [HN1 HN32] Hf.
  assert (Hok : makechan_ok N = true) by (apply makechan_ok_small; lia).
  pose proof (makechan_ok_range N Hok) as [_ HN].
  assert (Hnot : ∀ s, ¬ returned_all pages (Running s)) by (by intros s (l & ? & _)).
  assert (Hinev : inevitably N (returned_all pages) (start N)).
  { destruct (start N) as [s| | |] eqn:Hstart;
      try (unfold start in Hstart; rewrite Hok in Hstart; discriminate).
    apply (inevitably_by_invariant N (fan_inv N pages)); [done| | | |].
    - by intros s' (((? & _) & _) & _).
    - apply fan_inv_progress.
    - intros s1 c st' Hinv Hstep.
      destruct (fan_inv_keep N pages s1 c st' HN Hf Hinv Hstep) as [?|[[_ ?]|?]];
        [by left | lia | by right].
    - by apply fan_inv_start. }
  split; [done|]. split; [|split].
  - destruct (inevitably_witness _ _ _ Hinev) as (st' & Hreach & allPages & -> & _).
    by exists allPages.
  - intros allPages Hret.
    destruct (inevitably_reaches N _ _ _ Hinev Hret Hnot) as (l & [= <-] & Hperm); [done|].
    split; [done|].
    rewrite (Permutation_length Hperm), (fetched_length N pages Hf). lia.
  - intros sched st <- Hfinal.
    apply (inevitably_reaches N _ _ _ Hinev (run_reaches N sched _) Hnot Hfinal).
Qed.

(** C6. When the request for a page [p] of the catalog fails, or its answer
    does not decode, [fetchPage(p)] ends the process: the goroutine that
    fetches [p] exits at that step.  Whatever the page count [N ≥ p], every
    execution of the fan-out ends without returning, by that exit or by a
    panic, and it is an exit whenever [N < 2^31]; none returns a slice of
    pages, and [main] never gets to the reconciliation. *)
Theorem fetch_failure_is_fatal `{CatalogServer} (p N : Z) (files : list string) :
  fetch_fails p →
  1 ≤ p ≤ N →
  (∃ f, fetchPage p = LogFatal f) ∧
  (∀ s i, pool s !! i = Some (AtFetch p) → ∃ f, step N (Go i) s = Some (Exited f)) ∧
  inevitably N aborted (start N) ∧
  (N ≤ int32_max → inevitably N exited (start N)) ∧
  (∀ allPages, ¬ fetchAllPagesConcurrently N allPages) ∧
  ((p = 1 ∨ ∃ firstPage, fetchPage 1 = Return firstPage ∧ PageCount firstPage = N) →
   ∀ out, Main.catalog files out →
     (∀ missing, out ≠ Main.Reconciled missing) ∧
     (p = 1 ∨ N ≤ int32_max → ∃ f, out = Main.Terminated f)).
Proof.
  intros Hfail Hp.
  apply fetchPage_fatal_iff in Hfail as [f Hf].
  assert (Hnot : ∀ s, ¬ aborted (Running s)) by (by intros s [[? ?]|?]).
  assert (Hdoomed : ∀ Q : status → Prop,
            (∀ st, exited st → Q st) → (int32_max < N → Q Panicked) →
            inevitably N Q (start N)).
  { intros Q Hexit Hpanic. destruct (makechan_ok N) eqn:Hok.
    2: { unfold start. rewrite Hok. apply inev_now, Hpanic.
         apply makechan_not_ok in Hok. lia. }
    pose proof (makechan_ok_range N Hok) as [_ HN].
    destruct (start N) as [s| | |] eqn:Hstart;
      try (unfold start in Hstart; rewrite Hok in Hstart; discriminate).
    apply (inevitably_by_invariant N (doomed_inv N p)); [done| | | |].
    - by intros s' (((? & _) & _) & _).
    - apply (doomed_progress N p f).
    - intros s1 c st' Hinv Hstep.
      destruct (doomed_keep N p f s1 c st' Hf (conj (proj2 Hp) HN) Hinv Hstep)
        as [?|[[-> ?]|?]]; [left; by apply Hexit | left; by apply Hpanic | by right].
    - split; [by apply chan_inv_start|].
      unfold start in Hstart. rewrite Hok in Hstart. injection Hstart as <-.
      left. simpl. lia. }
  assert (Hinev : inevitably N aborted (start N)).
  { apply Hdoomed; [by left | by right]. }
  assert (Hnever : ∀ st, reaches N (start N) st → (∀ s, st ≠ Running s) → aborted st).
  { intros st Hreach Hfinal. by apply (inevitably_reaches N _ _ _ Hinev Hreach Hnot). }
  assert (Hnone : ∀ allPages, ¬ fetchAllPagesConcurrently N allPages).
  { intros allPages Hret. by destruct (Hnever _ Hret) as [[? ?]|?]. }
  split; [by exists f|]. split; [|split; [done|split; [|split; [done|]]]].
  - intros s i Hi. exists f. unfold step. by rewrite Hi, Hf.
  - intros HN32. apply Hdoomed; [done | lia].
  - intros Hfirst out Hout.
    destruct Hout as [f' Hf'|firstPage f' H1 Hreach|firstPage H1 Hreach|firstPage allPages H1 Hret].
    + split; [done | by exists f'].
    + split; [done | by exists f'].
    + split; [done|]. intros Hsmall. exfalso.
      destruct Hfirst as [->|(fp & H1' & HN')]; [congruence|].
      rewrite H1 in H1'. injection H1' as <-. rewrite HN' in Hreach.
      destruct Hsmall as [->|HN32]; [congruence|].
      apply reaches_panicked in Hreach. lia.
    + exfalso. destruct Hfirst as [->|(fp & H1' & HN')]; [congruence|].
      rewrite H1 in H1'. injection H1' as <-. rewrite HN' in Hret.
      by apply (Hnone allPages).
Qed.

Section CatalogExamples.
Local Existing Instance Sim.server.

(** The order of the result depends on the schedule. *)
Example fetchAll_in_spawn_order :
  run 2 [MainThread; MainThread; Go 0; Go 0; Go 0; Go 0; Go 0; Go 0; MainThread] (start 2)
  = Returned [Sim.page1; Sim.page2].
Proof. vm_compute. reflexivity. Qed.

Example fetchAll_out_of_order :
  run 2 [MainThread; MainThread; Go 1; Go 1; Go 1; Go 0; Go 0; Go 0; MainThread] (start 2)
  = Returned [Sim.page2; Sim.page1].
Proof. vm_compute. reflexivity. Qed.

(** A page that is in the channel while its goroutine has still to call
    [wg.Done()]: the main goroutine waits. *)
Example fetchAll_waits_for_Done :
  run 1 [MainThread; Go 0; Go 0; MainThread] (start 1)
  = Running {| pageNum := 2; wg := 1; pool := [AtDone]; results := [Sim.page1] |}.
Proof. vm_compute. reflexivity. Qed.

Example fetchAll_page3_exits :
  run 3 [MainThread; Go 0; MainThread; MainThread; Go 2] (start 3)
  = Exited (DecodeFailed 3 "invalid character").
Proof. vm_compute. reflexivity. Qed.

Lemma fetchAll_returns_every_page_witness :
  inevitably 2 (returned_all [Sim.page1; Sim.page2]) (start 2) ∧
  ∃ allPages, fetchAllPagesConcurrently 2 allPages.
Proof.
  destruct (fetchAll_returns_every_page 2 [Sim.page1; Sim.page2]) as (Hinev & Hex & _).
  - unfold int32_max. lia.
  - unfold fetched. change (seqZ 1 2) with [1; 2].
    repeat (apply Forall2_cons; split; [reflexivity|]). apply Forall2_nil_2.
  - split; [exact Hinev | exact Hex].
Defined.

Lemma fetch_failure_is_fatal_witness :
  inevitably 3 exited (start 3) ∧
  ∀ out, Main.catalog ["b.synth"] out → ∃ f, out = Main.Terminated f.
Proof.
  destruct (fetch_failure_is_fatal 3 3 ["b.synth"]) as (_ & _ & _ & Hinev & _ & Hmain).
  - right. exists "<html>", "invalid character". split; reflexivity.
  - lia.
  - split; [apply Hinev; unfold int32_max; lia|].
    intros out Hout. apply (Hmain (or_intror (ex_intro _ Sim.page1 (conj eq_refl eq_refl))) out Hout).
    right. unfold int32_max. lia.
Defined.

End CatalogExamples.

Section HugeCatalog.
Local Existing Instance SimAdb.endless.

(** With six trillion pages, each of which can be fetched, [make] panics
    and nothing is returned; with [2^31] pages there is an execution in
    which [wg.Add] panics. *)
Lemma fetchAll_panics_on_huge_count :
  (fetched 6000000000000 (replicate (Z.to_nat 6000000000000) SimAdb.page2) ∧
   start 6000000000000 = Panicked ∧
   (∀ allPages, ¬ fetchAllPagesConcurrently 6000000000000 allPages) ∧
   ¬ inevitably 6000000000000
       (returned_all (replicate (Z.to_nat 6000000000000) SimAdb.page2))
       (start 6000000000000)) ∧
  (fetched 2147483648 (replicate (Z.to_nat 2147483648) SimAdb.page2) ∧
   reaches 2147483648 (start 2147483648) Panicked ∧
   ¬ inevitably 2147483648
       (returned_all (replicate (Z.to_nat 2147483648) SimAdb.page2))
       (start 2147483648)).
Proof.
  assert (Hall : ∀ page, fetchPage page = Return SimAdb.page2) by done.
  assert (Hf : ∀ n, 0 ≤ n → fetched n (replicate (Z.to_nat n) SimAdb.page2)).
  { intros n Hn. pose proof (fetched_replicate SimAdb.page2 (Z.to_nat n) Hall) as Hf.
    by rewrite Z2Nat.id in Hf. }
  assert (Hnot : ∀ N pages, reaches N (start N) Panicked →
                   ¬ inevitably N (returned_all pages) (start N)).
  { intros N pages Hreach Hinev.
    destruct (inevitably_reaches N _ _ _ Hinev Hreach) as (l & ? & _); try done.
    by intros s (l & ? & _). }
  assert (Hbig : start 6000000000000 = Panicked) by reflexivity.
  assert (Hover : reaches 2147483648 (start 2147483648) Panicked).
  { apply spawn_overflow; [reflexivity | unfold int32_max; lia]. }
  split; [split; [|split; [|split]] | split; [|split]].
  - by apply Hf.
  - done.
  - intros allPages Hret. unfold fetchAllPagesConcurrently in Hret.
    rewrite Hbig in Hret. inversion Hret.
  - apply Hnot. rewrite Hbig. constructor.
  - by apply Hf.
  - done.
  - by apply Hnot.
Qed.

End HugeCatalog.

(** * Further properties of the code *)

(** ** The channel and the counter of the fan-out *)

(** X1. In every state that a call of [fetchAllPagesConcurrently] can
    reach, a goroutine that has its page can send it at once: the channel
    of capacity [totalPages] is never full for it, because the pages in the
    channel and the goroutines that have still to send never number more
    than [totalPages].  A goroutine that has sent can call [wg.Done()]
    without a panic: the counter is positive then, and never negative. *)
Theorem send_never_blocks `{CatalogServer} (N : Z) (s : orch) :
  reaches N (start N) (Running s) →
  (∀ i pg, pool s !! i = Some (AtSend pg) →
     step N (Go i) s
     = Some (Running {| pageNum := pageNum s; wg := wg s;
                        pool := <[i := AtDone]> (pool s);
                        results := results s ++ [pg] |})) ∧
  (∀ i, pool s !! i = Some AtDone →
     0 < wg s ∧
     step N (Go i) s
     = Some (Running {| pageNum := pageNum s; wg := wg s - 1;
                        pool := delete i (pool s);
                        results := results s |})) ∧
  Z.of_nat (sum_list_with unsent (pool s) + length (results s)) ≤ N ∧
  0 ≤ wg s.
Proof.
  intros Hreach.
  assert (HN : N < int_max).
  { destruct (makechan_ok N) eqn:Hok; [by apply makechan_ok_range|].
    unfold start in Hreach. rewrite Hok in Hreach. inversion Hreach. }
  assert (Hinv : chan_inv N s).
  { eapply chan_inv_reaches; [done|exact Hreach| |done]. apply chan_inv_start. }
  pose proof Hinv as ((Hlo & Hhi) & Hwg & Hmax & Hpool & Hlen).
  split; [|split; [|split; lia]].
  - intros i pg Hi. pose proof (chan_inv_send N s i pg Hinv Hi).
    unfold step. rewrite Hi.
    destruct (Z.of_nat (length (results s)) <? N) eqn:E; [done | lia].
  - intros i Hi. pose proof (lookup_lt_Some _ _ _ Hi).
    split; [lia|]. unfold step. rewrite Hi. cbv zeta.
    rewrite wrap_int32_small by (unfold int32_max in *; lia).
    destruct (wg s - 1 <? 0) eqn:E; [lia | done].
Qed.

(** X2. Whatever the server answers, every execution of
    [fetchAllPagesConcurrently] comes to an end under every schedule: no
    state is reached in which every goroutine is blocked, and the call
    returns, or the process exits or panics, after finitely many steps. *)
Theorem fetchAll_always_ends `{CatalogServer} (N : Z) :
  N < int_max →
  inevitably N final (start N) ∧
  (∀ s, reaches N (start N) (Running s) → ∃ c st', step N c s = Some st').
Proof.
  intros HN. split.
  - destruct (start N) as [s| | |] eqn:Hstart; try (by apply inev_now).
    apply (inevitably_by_invariant N (chan_inv N)); [done| | | |].
    + by intros s' ((? & _) & _).
    + apply chan_inv_progress.
    + intros s1 c st' Hinv Hstep. destruct st' as [s'| | |]; try (by left).
      right. exists s'. split; [done|]. by eapply chan_inv_keep.
    + by apply chan_inv_start.
  - intros s Hreach. apply (chan_inv_progress N).
    eapply chan_inv_reaches; [done|exact Hreach| |done]. apply chan_inv_start.
Qed.

(** X3. Without pages to fetch no goroutine is started and nothing is
    requested: for a page count of zero the call returns the empty slice,
    and for a negative page count [make] panics. *)
Theorem fetchAll_without_pages `{CatalogServer} (N : Z) (st : status) :
  N ≤ 0 →
  reaches N (start N) st → final st →
  (N < 0 ∧ st = Panicked) ∨ (N = 0 ∧ st = Returned []).
Proof.
  intros HN Hreach Hfinal. unfold start in Hreach.
  destruct (decide (N = 0)) as [->|Hne].
  - right. split; [done|]. change (makechan_ok 0) with true in Hreach.
    inversion Hreach as [|c s st1 st2 Hstep Hrest]; subst.
    { by destruct (Hfinal {| pageNum := 1; wg := 0; pool := []; results := [] |}). }
    destruct c as [|i]; [|done].
    unfold step in Hstep. simpl in Hstep. injection Hstep as <-.
    by inversion Hrest.
  - left. split; [lia|].
    assert (makechan_ok N = false) as Hno.
    { unfold makechan_ok. destruct (0 <=? N) eqn:E; [lia | done]. }
    rewrite Hno in Hreach. by inversion Hreach.
Qed.

Section ChannelExamples.
Local Existing Instance Sim.server.

Lemma send_never_blocks_witness :
  step 2 (Go 0) {| pageNum := 3; wg := 2;
                   pool := [AtSend Sim.page1; AtFetch 2]; results := [] |}
  = Some (Running {| pageNum := 3; wg := 2;
                     pool := <[0%nat := AtDone]> [AtSend Sim.page1; AtFetch 2];
                     results := [] ++ [Sim.page1] |}).
Proof.
  refine (proj1 (send_never_blocks 2
            {| pageNum := 3; wg := 2; pool := [AtSend Sim.page1; AtFetch 2]; results := [] |}
            _) 0%nat Sim.page1 _).
  - assert (E : run 2 [MainThread; MainThread; Go 0] (start 2)
               = Running {| pageNum := 3; wg := 2;
                            pool := [AtSend Sim.page1; AtFetch 2]; results := [] |})
      by (vm_compute; reflexivity).
    rewrite <- E. apply run_reaches.
  - reflexivity.
Defined.

Lemma fetchAll_always_ends_witness :
  inevitably 3 final (start 3) ∧
  (∀ s, reaches 3 (start 3) (Running s) → ∃ c st', step 3 c s = Some st').
Proof.
  apply (fetchAll_always_ends 3). unfold int_max. lia.
Defined.

Lemma fetchAll_without_pages_witness :
  (0 < 0 ∧ Returned [] = Panicked) ∨ (0 = 0 ∧ Returned [] = Returned []).
Proof.
  apply (fetchAll_without_pages 0 (Returned [])).
  - lia.
  - apply (run_reaches 0 [MainThread] (start 0)).
  - intros s. discriminate.
Defined.

End ChannelExamples.

Lemma fetchAll_Permutation `{CatalogServer} (N : Z) (pages allPages : list BeatmapPage) :
  0 ≤ N < int_max → fetched N pages →
  fetchAllPagesConcurrently N allPages → allPages ≡ₚ pages.
Proof.
  intros [HN0 HN] Hf Hret.
  destruct (fan_inv_returned N pages _ _ HN Hf Hret) with (allPages := allPages)
    as [Hstart|?]; [|done| |done].
  - intros s. apply fan_inv_start.
  - unfold start in Hstart. by destruct (makechan_ok N).
Qed.

(** ** What [downloadAndPushBeatmap] does on each of its paths *)

Section Paths.
Context {W : Type} `{OS W}.
Implicit Types (b : Beatmap) (serial remoteDir : string) (st : St W).

Lemma since_app (t l : list event) : since t (t ++ l) = l.
Proof. unfold since. by rewrite drop_app_length. Qed.

(** The events of one call, path by path. *)
Lemma run_events b serial remoteDir st :
  let u := fullURL b in
  let tmpPath := temp_path (Filename b) in
  since (trace st) (trace (snd (downloadAndPushBeatmap b serial remoteDir st)))
  = Call (Get u) ::
    match http_Get u (world st) with
    | (inr _, _) => []
    | (inl resp, w1) =>
        (if StatusCode resp =? 200 then
           Call (Create tmpPath) ::
           match os_Create tmpPath w1 with
           | (Some _, _) => []
           | (None, w2) =>
               Call (Copy tmpPath) ::
               match io_Copy tmpPath (Body resp) w2 with
               | (Some _, _) => []
               | (None, w3) =>
                   if decide (serial = "") then []
                   else
                     Call (Exec (pushCommand serial tmpPath remoteDir)) ::
                     match exec_CombinedOutput (pushCommand serial tmpPath remoteDir) w3 with
                     | ((_, Some _), _) => []
                     | ((_, None), w4) =>
                         Printed (Pushed (Filename b) remoteDir) ::
                         Call (Remove tmpPath) ::
                         match os_Remove tmpPath w4 with
                         | (Some err, _) => [Printed (WarnDelete tmpPath err)]
                         | (None, _) => []
                         end
                     end
               end ++ [Call (CloseFile tmpPath)]
           end
         else []) ++ [Call (CloseBody u)]
    end.
Proof.
  intros u tmpPath. subst u tmpPath. go_unfold. simpl.
  destruct (http_Get _ _) as [[resp|err] w1]; simpl; [|by rewrite since_app].
  destruct (StatusCode resp =? 200); simpl; [|by rewrite <- !app_assoc, since_app].
  destruct (os_Create _ _) as [[err|] w2]; simpl;
    [by rewrite <- !app_assoc, since_app|].
  destruct (io_Copy _ _ _) as [[err|] w3]; simpl;
    [by rewrite <- !app_assoc, since_app|].
  destruct (decide (serial = "")); simpl; [by rewrite <- !app_assoc, since_app|].
  destruct (exec_CombinedOutput _ _) as [[out [err|]] w4]; simpl;
    [by rewrite <- !app_assoc, since_app|].
  destruct (os_Remove _ _) as [[err|] w5]; simpl;
    by rewrite <- !app_assoc, since_app.
Qed.

(** The result of one call, path by path. *)
Lemma run_result b serial remoteDir st :
  let u := fullURL b in
  let tmpPath := temp_path (Filename b) in
  fst (downloadAndPushBeatmap b serial remoteDir st)
  = match http_Get u (world st) with
    | (inr err, _) => Err (FailedToDownload (Filename b) err)
    | (inl resp, w1) =>
        if StatusCode resp =? 200 then
          match os_Create tmpPath w1 with
          | (Some err, _) => Err (FailedToCreate err)
          | (None, w2) =>
              match io_Copy tmpPath (Body resp) w2 with
              | (Some err, _) => Err (FailedToWrite err)
              | (None, w3) =>
                  if decide (serial = "") then Panic
                  else
                    match exec_CombinedOutput (pushCommand serial tmpPath remoteDir) w3 with
                    | ((output, Some err), _) => Err (AdbPushFailed err output)
                    | ((_, None), _) => Ok tt
                    end
              end
          end
        else Err (DownloadFailedStatus (Filename b) (Status resp))
    end.
Proof.
  intros u tmpPath. subst u tmpPath. go_unfold. simpl.
  destruct (http_Get _ _) as [[resp|err] w1]; simpl; [|done].
  destruct (StatusCode resp =? 200); simpl; [|done].
  destruct (os_Create _ _) as [[err|] w2]; simpl; [done|].
  destruct (io_Copy _ _ _) as [[err|] w3]; simpl; [done|].
  destruct (decide (serial = "")); simpl; [done|].
  destruct (exec_CombinedOutput _ _) as [[out [err|]] w4]; simpl; [done|].
  by destruct (os_Remove _ _) as [[err|] w5].
Qed.

End Paths.

(** Membership in a list that is written out. *)
Ltac mem_inv H :=
  repeat first
    [ apply elem_of_nil in H; destruct H
    | apply elem_of_cons in H as [H|H]; [try discriminate H|]
    | apply elem_of_app in H as [H|H] ].

Ltac no_such_event :=
  let Hin := fresh "Hin" in
  split; [intros Hin; simpl in Hin; mem_inv Hin | intros [? ?]; discriminate].

(** X4. [downloadAndPushBeatmap] returns nil only when every step has gone
    through, and always then: the serial is not empty, the download
    answered 200, the temporary file was created and written, and
    [adb push] succeeded. *)
Theorem push_succeeds_iff {W : Type} `{OS W}
    (b : Beatmap) (serial remoteDir : string) (st : St W) :
  fst (downloadAndPushBeatmap b serial remoteDir st) = Ok tt ↔
  serial ≠ "" ∧
  ∃ resp w3 output w4,
    downloaded b (world st) resp w3 ∧
    exec_CombinedOutput (pushCommand serial (temp_path (Filename b)) remoteDir) w3
    = ((output, None), w4).
Proof.
  rewrite run_result. cbv zeta. unfold downloaded. split.
  - destruct (http_Get _ _) as [[resp|err] w1]; [|done].
    destruct (StatusCode resp =? 200) eqn:Hcode; [|done].
    destruct (os_Create _ _) as [[err|] w2] eqn:Hcreate; [done|].
    destruct (io_Copy _ _ _) as [[err|] w3] eqn:Hcopy; [done|].
    destruct (decide (serial = "")); [done|].
    destruct (exec_CombinedOutput _ _) as [[out [err|]] w4] eqn:Hpush; [done|].
    intros _. split; [done|]. exists resp, w3, out, w4.
    split; [|done]. exists w1, w2. repeat split; [lia|done|done].
  - intros (Hs & resp & w3 & out & w4 & (w1 & w2 & -> & Hcode & -> & ->) & ->).
    rewrite Hcode. simpl. by rewrite decide_False.
Qed.

(** X5. The temporary file is deleted only after a successful push.  On
    every other path that has created it (the copy fails, the push fails,
    the serial is empty) [os.Remove] is never called and the file is left
    in the temporary directory. *)
Theorem cleanup_only_after_push {W : Type} `{OS W}
    (b : Beatmap) (serial remoteDir : string) (st : St W) (path : string) :
  Call (Remove path)
    ∈ since (trace st) (trace (snd (downloadAndPushBeatmap b serial remoteDir st))) ↔
  fst (downloadAndPushBeatmap b serial remoteDir st) = Ok tt ∧
  path = temp_path (Filename b).
Proof.
  rewrite run_events, run_result. cbv zeta.
  destruct (http_Get _ _) as [[resp|err] w1]; [|by no_such_event].
  destruct (StatusCode resp =? 200); [|by no_such_event].
  destruct (os_Create _ _) as [[err|] w2]; [by no_such_event|].
  destruct (io_Copy _ _ _) as [[err|] w3]; [by no_such_event|].
  destruct (decide (serial = "")); [by no_such_event|].
  destruct (exec_CombinedOutput _ _) as [[out [err|]] w4]; [by no_such_event|].
  split.
  - intros Hin. split; [done|].
    destruct (os_Remove _ _) as [[err|] w5]; simpl in Hin; mem_inv Hin; congruence.
  - intros [_ ->]. do 5 (apply elem_of_cons; right). apply elem_of_cons. by left.
Qed.

(** X6. Whatever happens afterwards, a response that was obtained has its
    body closed and a temporary file that was created is closed, also when
    the function leaves by an error or by the nil-command panic; and
    nothing is closed that was not opened. *)
Theorem handles_are_closed {W : Type} `{OS W}
    (b : Beatmap) (serial remoteDir : string) (st : St W) :
  let evs := since (trace st) (trace (snd (downloadAndPushBeatmap b serial remoteDir st))) in
  (Call (CloseBody (fullURL b)) ∈ evs ↔
     ∃ resp w1, http_Get (fullURL b) (world st) = (inl resp, w1)) ∧
  (Call (CloseFile (temp_path (Filename b))) ∈ evs ↔
     ∃ resp w1 w2,
       http_Get (fullURL b) (world st) = (inl resp, w1) ∧
       StatusCode resp = 200 ∧
       os_Create (temp_path (Filename b)) w1 = (None, w2)).
Proof.
  intros evs. subst evs. rewrite run_events. cbv zeta.
  destruct (http_Get _ _) as [[resp|err] w1].
  2: { split; (split; [intros Hin; mem_inv Hin |]).
       - by intros (? & ? & ?).
       - by intros (? & ? & ? & ? & _). }
  destruct (StatusCode resp =? 200) eqn:Hcode.
  2: { split; [split; [eauto | intros _; simpl; apply elem_of_cons; right; by left]|].
       split; [intros Hin; simpl in Hin; mem_inv Hin|].
       intros (? & ? & ? & [= <- <-] & ? & _). lia. }
  assert (StatusCode resp = 200) by lia.
  destruct (os_Create _ _) as [[err|] w2] eqn:Hcreate.
  { split; [split; [eauto | intros _; simpl; do 2 (apply elem_of_cons; right); by left]|].
    split; [intros Hin; simpl in Hin; mem_inv Hin|].
    intros (? & ? & ? & [= <- <-] & _ & ?). congruence. }
  split; (split; [eauto 10|]); intros _.
  - apply elem_of_cons. right. apply elem_of_app. right. by left.
  - apply elem_of_cons. right. apply elem_of_app. left.
    apply elem_of_cons. right.
    apply elem_of_cons. right. apply elem_of_app. right. by left.
Qed.

(** ** What the sync loop prints and runs *)

Section LoopFacts.
Context {W : Type} `{OS W}.
Implicit Types (b : Beatmap) (serial remoteDir : string) (st : St W).

Lemma since_prefix (t0 t : list event) : t0 `prefix_of` t → t = t0 ++ since t0 t.
Proof. intros [l ->]. by rewrite since_app. Qed.

Lemma run_trace_since b serial remoteDir st :
  trace (snd (downloadAndPushBeatmap b serial remoteDir st))
  = trace st
    ++ since (trace st) (trace (snd (downloadAndPushBeatmap b serial remoteDir st))).
Proof. apply since_prefix, run_trace_prefix. Qed.

Lemma run_verdicts b serial remoteDir st :
  verdicts (trace (snd (downloadAndPushBeatmap b serial remoteDir st)))
  = verdicts (trace st)
    ++ match fst (downloadAndPushBeatmap b serial remoteDir st) with
       | Ok _ => [Filename b]
       | _ => []
       end.
Proof.
  rewrite run_trace_since. unfold verdicts at 1. rewrite omap_app. f_equal.
  rewrite run_events, run_result. cbv zeta.
  destruct (http_Get _ _) as [[resp|err] w1]; [|done].
  destruct (StatusCode resp =? 200); [|done].
  destruct (os_Create _ _) as [[err|] w2]; [done|].
  destruct (io_Copy _ _ _) as [[err|] w3]; [done|].
  destruct (decide (serial = "")); [done|].
  destruct (exec_CombinedOutput _ _) as [[out [err|]] w4]; [done|].
  by destruct (os_Remove _ _) as [[err|] w5].
Qed.

Lemma run_commands b serial remoteDir st :
  ∃ l, commands (trace (snd (downloadAndPushBeatmap b serial remoteDir st)))
       = commands (trace st) ++ l ∧
       l `sublist_of` [pushCommand serial (temp_path (Filename b)) remoteDir].
Proof.
  rewrite run_trace_since. unfold commands at 1. rewrite omap_app.
  eexists. split; [reflexivity|].
  rewrite run_events. cbv zeta.
  destruct (http_Get _ _) as [[resp|err] w1]; [|by apply sublist_nil_l].
  destruct (StatusCode resp =? 200); [|by apply sublist_nil_l].
  destruct (os_Create _ _) as [[err|] w2]; [by apply sublist_nil_l|].
  destruct (io_Copy _ _ _) as [[err|] w3]; [by apply sublist_nil_l|].
  destruct (decide (serial = "")); [by apply sublist_nil_l|].
  destruct (exec_CombinedOutput _ _) as [[out [err|]] w4]; [done|].
  by destruct (os_Remove _ _) as [[err|] w5].
Qed.

End LoopFacts.

(** X7. With a device serial, the loop prints exactly one verdict for every
    missing entry, in the order of the list: the line that it was pushed,
    or the line with its error.  No entry is passed over in silence and
    none is reported twice. *)
Theorem every_entry_gets_a_verdict {W : Type} `{OS W}
    (missing : list Beatmap) (serial : string) (st : St W) :
  serial ≠ "" →
  verdicts (trace (snd (Main.syncLoop missing serial st)))
  = verdicts (trace st) ++ (Filename <$> missing).
Proof.
  intros Hs. revert st. induction missing as [|bm rest IH]; intros st.
  - simpl. by rewrite app_nil_r.
  - pose proof (run_verdicts bm serial Main.remoteDir st) as Hv.
    pose proof (panic_inv bm serial Main.remoteDir st) as Hpanic.
    cbn [Main.syncLoop]. unfold bind at 1.
    destruct (downloadAndPushBeatmap bm serial Main.remoteDir st) as [r st'].
    simpl in Hv, Hpanic. rewrite fmap_cons.
    destruct r as [[]|e|].
    + rewrite IH, Hv, <- app_assoc. done.
    + unfold bind, print, emit. simpl. rewrite IH. simpl.
      unfold verdicts at 1. rewrite omap_app. fold (verdicts (trace st')).
      rewrite Hv, app_nil_r, <- app_assoc. done.
    + by destruct Hpanic.
Qed.

(** X8. The only commands the loop runs are [adb push] of the temporary
    file of a missing entry to the songs folder of the chosen device: at
    most one for each entry, in the order of the list. *)
Theorem loop_runs_only_pushes {W : Type} `{OS W}
    (missing : list Beatmap) (serial : string) (st : St W) :
  ∃ l, commands (trace (snd (Main.syncLoop missing serial st)))
       = commands (trace st) ++ l ∧
       l `sublist_of`
         ((λ b, pushCommand serial (temp_path (Filename b)) Main.remoteDir) <$> missing).
Proof.
  revert st. induction missing as [|bm rest IH]; intros st.
  - exists []. simpl. by rewrite app_nil_r.
  - destruct (run_commands bm serial Main.remoteDir st) as (l1 & Hc & Hsub).
    cbn [Main.syncLoop]. unfold bind at 1.
    destruct (downloadAndPushBeatmap bm serial Main.remoteDir st) as [r st'].
    simpl in Hc. rewrite fmap_cons.
    assert (Hstep : ∀ st1, commands (trace st1) = commands (trace st') →
      ∃ l, commands (trace (snd (Main.syncLoop rest serial st1)))
           = commands (trace st) ++ l ∧
           l `sublist_of`
             (pushCommand serial (temp_path (Filename bm)) Main.remoteDir
              :: ((λ b, pushCommand serial (temp_path (Filename b)) Main.remoteDir) <$> rest))).
    { intros st1 Hst1. destruct (IH st1) as (l2 & Hc2 & Hsub2).
      exists (l1 ++ l2). rewrite Hc2, Hst1, Hc, <- app_assoc. split; [done|].
      by apply (sublist_app l1 [_] l2 _). }
    destruct r as [[]|e|].
    + by apply Hstep.
    + unfold bind, print, emit. simpl. apply Hstep. simpl.
      unfold commands at 1. rewrite omap_app. simpl. by rewrite app_nil_r.
    + simpl. exists l1. split; [done|].
      etrans; [exact Hsub|]. apply sublist_skip, sublist_nil_l.
Qed.

Section LoopExamples.
Local Existing Instance Sim.os.

Lemma every_entry_gets_a_verdict_witness :
  verdicts (trace (snd (Main.syncLoop [Sim.gone; Sim.b; Sim.c] "1WMHH000X" (Sim.init []))))
  = verdicts (trace (Sim.init [])) ++ (Filename <$> [Sim.gone; Sim.b; Sim.c]).
Proof.
  apply (every_entry_gets_a_verdict [Sim.gone; Sim.b; Sim.c] "1WMHH000X" (Sim.init [])).
  vm_compute. congruence.
Defined.

End LoopExamples.

(** ** What [selectDevice] prints and reads *)

Section Menu.
Context {W : Type} `{OS W}.

Lemma printDevices_run (devices : list Device) (i : Z) (st : St W) :
  printDevices i devices st
  = (tt, {| world := world st;
            trace := trace st
                     ++ imap (λ k d, Printed (DeviceLine (i + Z.of_nat k + 1)
                                                (Serial d) (Model d))) devices |}).
Proof.
  revert i st. induction devices as [|d ds IH]; intros i st.
  - simpl. rewrite app_nil_r. by destruct st.
  - cbn [printDevices]. unfold bind, print, emit. rewrite IH. simpl.
    rewrite <- app_assoc. simpl. do 3 f_equal.
    f_equal; [do 2 f_equal; lia|].
    apply imap_ext. intros k x _. simpl. do 2 f_equal. lia.
Qed.

Lemma selectDevice_run (devices : list Device) (st : St W) :
  devices ≠ [] →
  snd (selectDevice devices st)
  = {| world := snd (fmt_Scanf_d (world st));
       trace := trace st ++ [Printed AvailableDevices] ++ menu devices
                ++ [Printed Prompt; Call Scanf] |}.
Proof.
  intros Hne. unfold selectDevice.
  destruct (Z.of_nat (length devices) =? 0) eqn:E.
  { destruct devices; [done | simpl in E; lia]. }
  unfold bind, print, emit, call. rewrite printDevices_run. simpl.
  destruct (fmt_Scanf_d (world st)) as [r w'] eqn:Hscan. simpl.
  assert (Htrace :
    ((((trace st ++ [Printed AvailableDevices])
       ++ imap (λ k d, Printed (DeviceLine (0 + Z.of_nat k + 1) (Serial d) (Model d)))
            devices) ++ [Printed Prompt]) ++ [Call Scanf])
    = trace st ++ Printed AvailableDevices :: menu devices ++ [Printed Prompt; Call Scanf]).
  { rewrite <- !app_assoc. reflexivity. }
  destruct r as [c|]; simpl; [|by rewrite Htrace].
  destruct ((c <? 1) || (Z.of_nat (length devices) <? c)); simpl; [by rewrite Htrace|].
  destruct (slice_at devices (c - 1)); simpl; by rewrite Htrace.
Qed.

End Menu.

(** X9. With no device in the list [selectDevice] prints nothing and does
    not read the input.  Otherwise it prints the heading, one line for
    every device, numbered from 1 in the order of the list, and the
    prompt, and then reads the input exactly once, whether the choice turns
    out valid or not. *)
Theorem selectDevice_effects {W : Type} `{OS W} (devices : list Device) (st : St W) :
  selectDevice [] st = (Err NoDevicesFound, st) ∧
  (devices ≠ [] →
   snd (selectDevice devices st)
   = {| world := snd (fmt_Scanf_d (world st));
        trace := trace st ++ [Printed AvailableDevices] ++ menu devices
                 ++ [Printed Prompt; Call Scanf] |}).
Proof. split; [done | apply selectDevice_run]. Qed.

(** X10. The serial that [selectDevice] returns is the one it has printed
    on the line that carries the number chosen: the numbering shown to the
    user and the index used for the answer agree. *)
Theorem chosen_serial_was_shown {W : Type} `{OS W}
    (devices : list Device) (st : St W) (serial : string) :
  fst (selectDevice devices st) = Ok serial →
  ∃ c model,
    fst (fmt_Scanf_d (world st)) = Some c ∧
    devices !! Z.to_nat (c - 1) = Some {| Serial := serial; Model := model |} ∧
    Printed (DeviceLine c serial model)
      ∈ since (trace st) (trace (snd (selectDevice devices st))).
Proof.
  rewrite selectDevice_cases.
  destruct (Z.of_nat (length devices) =? 0) eqn:Elen; [done|].
  assert (Hne : devices ≠ []) by (intros ->; simpl in Elen; lia).
  destruct (fst (fmt_Scanf_d (world st))) as [c|]; [|done].
  destruct ((c <? 1) || (Z.of_nat (length devices) <? c)) eqn:Erange; [done|].
  destruct (slice_at_in_range devices (c - 1)) as (d & Hd & Hlk); [lia|].
  rewrite Hd. intros [= <-]. exists c, (Model d).
  split; [done|]. split; [by destruct d|].
  rewrite selectDevice_run by done. simpl. rewrite since_app.
  apply elem_of_cons. right. apply elem_of_app. left.
  unfold menu. apply elem_of_lookup_imap. exists (Z.to_nat (c - 1)), d.
  split; [|done]. do 2 f_equal. lia.
Qed.

Section MenuExamples.
Local Existing Instance Sim.os.

Lemma chosen_serial_was_shown_witness :
  ∃ c model,
    fst (fmt_Scanf_d (world (Sim.init [Some 2]))) = Some c ∧
    [Sim.quest; Sim.pico] !! Z.to_nat (c - 1) = Some {| Serial := "PA7L10"; Model := model |} ∧
    Printed (DeviceLine c "PA7L10" model)
      ∈ since (trace (Sim.init [Some 2]))
              (trace (snd (selectDevice [Sim.quest; Sim.pico] (Sim.init [Some 2])))).
Proof.
  apply (chosen_serial_was_shown [Sim.quest; Sim.pico] (Sim.init [Some 2]) "PA7L10").
  reflexivity.
Defined.

End MenuExamples.

(** ** The list of connected devices *)

Lemma strings_TrimPrefix_spec (s prefix : string) :
  strings_HasPrefix s prefix = true → s = prefix +:+ strings_TrimPrefix s prefix.
Proof.
  intros Hp. unfold strings_TrimPrefix. rewrite Hp.
  revert s Hp. induction prefix as [|p prefix IH]; intros s Hp; [done|].
  destruct s as [|c s]; [done|]. simpl in *.
  destruct (decide (c = p)) as [->|]; [|done].
  change (String.String p s = String.String p (prefix +:+ string_from (String.length prefix) s)).
  f_equal. by apply IH.
Qed.

Section DeviceList.
Context `{Text}.

Lemma modelOf_spec (fields : list string) :
  (modelOf fields = "(unknown)" ∧
   Forall (λ f, strings_HasPrefix f "model:" = false) fields) ∨
  (∃ pre f post,
     fields = pre ++ f :: post ∧
     Forall (λ f, strings_HasPrefix f "model:" = false) pre ∧
     f = "model:" +:+ modelOf fields).
Proof.
  induction fields as [|f fields IH]; [by left|].
  cbn [modelOf]. destruct (strings_HasPrefix f "model:") eqn:Hf.
  - right. exists [], f, fields. split; [done|]. split; [done|].
    by apply strings_TrimPrefix_spec.
  - destruct IH as [[-> Hall]|(pre & g & post & -> & Hpre & Hg)].
    + left. split; [done|]. by constructor.
    + right. exists (f :: pre), g, post. split; [done|]. split; [by constructor|done].
Qed.

(** A line adds nothing, or it adds the device its fields describe. *)
Lemma scanLine_spec (devices : list Device) (line : string) :
  scanLine devices line = devices ∨
  ∃ serial rest,
    strings_HasPrefix line "List of devices" = false ∧
    strings_TrimSpace line ≠ "" ∧
    strings_Fields line = serial :: "device" :: rest ∧
    scanLine devices line
    = devices ++ [{| Serial := serial; Model := modelOf (serial :: "device" :: rest) |}].
Proof.
  unfold scanLine.
  destruct (strings_HasPrefix line "List of devices") eqn:Hhead; [by left|].
  destruct (bool_decide (strings_TrimSpace line = "")) eqn:Hblank; [by left|].
  apply bool_decide_eq_false in Hblank. simpl.
  destruct (strings_Fields line) as [|serial [|state rest]] eqn:Hfields; [by left|by left|].
  destruct (bool_decide (state ≠ "device")) eqn:Hstate; [by left|].
  apply bool_decide_eq_false in Hstate. apply dec_stable in Hstate as ->.
  right. by exists serial, rest.
Qed.

Lemma scanLines_elem (lines : list string) (acc : list Device) (d : Device) :
  d ∈ foldl scanLine acc lines →
  d ∈ acc ∨
  ∃ line rest,
    line ∈ lines ∧
    strings_HasPrefix line "List of devices" = false ∧
    strings_Fields line = Serial d :: "device" :: rest ∧
    Model d = modelOf (Serial d :: "device" :: rest).
Proof.
  revert acc. induction lines as [|line lines IH]; intros acc; [by left|].
  simpl. intros Hd. apply IH in Hd as [Hd|(l & rest & Hl & ?)].
  - destruct (scanLine_spec acc line) as [E|(serial & rest & Hhead & _ & Hf & E)];
      rewrite E in Hd; [by left|].
    apply elem_of_app in Hd as [Hd|Hd]; [by left|].
    apply list_elem_of_singleton in Hd as ->. right.
    exists line, rest. split; [by left|]. done.
  - right. exists l, rest. split; [by right|done].
Qed.

Lemma listConnectedDevices_run {W : Type} `{Adb W} (st : St W) :
  listConnectedDevices st
  = let args := ["adb"; "devices"; "-l"] in
    let '((output, err), w) := exec_Output args (world st) in
    (match err with
     | Some e => Err e
     | None =>
         match (bufio_lines output).2 with
         | Some e => Err e
         | None => Ok (foldl scanLine [] (bufio_lines output).1)
         end
     end,
     {| world := w; trace := trace st ++ [Call (Exec args)] |}).
Proof.
  unfold listConnectedDevices, bind, call, ret. cbv zeta.
  destruct (exec_Output _ _) as [[output [e|]] w]; [done|].
  by destruct (bufio_lines output) as [lines [e|]].
Qed.

Lemma listed_serial_from_fields {W : Type} `{Adb W} (st st' : St W)
    (devices : list Device) (d : Device) :
  listConnectedDevices st = (Ok devices, st') → d ∈ devices →
  ∃ line, Serial d ∈ strings_Fields line.
Proof.
  rewrite listConnectedDevices_run. cbv zeta.
  destruct (exec_Output _ _) as [[output [e|]] w]; [done|].
  destruct (bufio_lines output) as [lines [e|]]; [done|]. simpl.
  intros [= <- <-] Hd.
  apply scanLines_elem in Hd as [Hd|(line & rest & _ & _ & Hf & _)].
  - by apply elem_of_nil in Hd.
  - exists line. rewrite Hf. by left.
Qed.

End DeviceList.

Lemma selectDevice_Ok_elem {W : Type} `{OS W}
    (devices : list Device) (st : St W) (serial : string) :
  fst (selectDevice devices st) = Ok serial → ∃ d, d ∈ devices ∧ Serial d = serial.
Proof.
  rewrite selectDevice_cases.
  destruct (Z.of_nat (length devices) =? 0); [done|].
  destruct (fst (fmt_Scanf_d (world st))) as [c|]; [|done].
  destruct ((c <? 1) || (Z.of_nat (length devices) <? c)) eqn:Erange; [done|].
  destruct (slice_at_in_range devices (c - 1)) as (d & Hd & Hlk); [lia|].
  rewrite Hd. intros [= <-]. exists d. split; [|done].
  by eapply list_elem_of_lookup_2.
Qed.

(** X11. Every device that [listConnectedDevices] returns comes from a
    line of the [adb devices -l] output that is not the heading, whose
    first field is its serial and whose second field is exactly [device]:
    a device listed as unauthorized or offline is never returned.  Its
    model is the text after [model:] in the first field that starts so, and
    [(unknown)] when there is no such field. *)
Theorem listed_devices_are_ready `{Text} {W : Type} `{Adb W}
    (st st' : St W) (devices : list Device) (d : Device) :
  listConnectedDevices st = (Ok devices, st') →
  d ∈ devices →
  let output := (exec_Output ["adb"; "devices"; "-l"] (world st)).1.1 in
  ∃ line rest,
    line ∈ (bufio_lines output).1 ∧
    strings_HasPrefix line "List of devices" = false ∧
    strings_Fields line = Serial d :: "device" :: rest ∧
    ((Model d = "(unknown)" ∧
      Forall (λ f, strings_HasPrefix f "model:" = false) (strings_Fields line)) ∨
     ∃ pre f post,
       strings_Fields line = pre ++ f :: post ∧
       Forall (λ f, strings_HasPrefix f "model:" = false) pre ∧
       f = "model:" +:+ Model d).
Proof.
  rewrite listConnectedDevices_run. cbv zeta.
  destruct (exec_Output _ _) as [[output [e|]] w]; [done|].
  destruct (bufio_lines output) as [lines [e|]] eqn:Hlines; [done|]. simpl.
  intros [= <- <-] Hd.
  apply scanLines_elem in Hd as [Hd|(line & rest & Hl & Hhead & Hf & Hm)].
  { by apply elem_of_nil in Hd. }
  exists line, rest. rewrite Hlines. split; [done|]. split; [done|]. split; [done|].
  rewrite Hf, Hm. apply modelOf_spec.
Qed.

(** X12. [listConnectedDevices] fails exactly when the [adb] command fails
    or the scanner reports an error; in the second case the devices read so
    far are dropped.  In every case it runs that one command and prints
    nothing. *)
Theorem listConnectedDevices_errors `{Text} {W : Type} `{Adb W} (st : St W) (e : string) :
  let r := exec_Output ["adb"; "devices"; "-l"] (world st) in
  (fst (listConnectedDevices st) = Err e ↔
     r.1.2 = Some e ∨ (r.1.2 = None ∧ (bufio_lines r.1.1).2 = Some e)) ∧
  snd (listConnectedDevices st)
  = {| world := r.2; trace := trace st ++ [Call (Exec ["adb"; "devices"; "-l"])] |}.
Proof.
  intros r. subst r. rewrite listConnectedDevices_run. cbv zeta.
  destruct (exec_Output _ _) as [[output [e'|]] w]; simpl.
  - split; [|done]. split; [intros [= ->]; by left|].
    intros [[= ->]|[? _]]; done.
  - destruct (bufio_lines output) as [lines [e'|]]; simpl; (split; [|done]).
    + split; [intros [= ->]; by right|]. intros [?|[_ [= ->]]]; done.
    + split; [done|]. intros [?|[_ ?]]; done.
Qed.

(** X13. [strings.Fields] yields no empty field, so every device that
    [listConnectedDevices] returns has a serial that is not empty. *)
Theorem listed_serials_not_empty `{Text} {W : Type} `{Adb W}
    (st st' : St W) (devices : list Device) :
  (∀ line f, f ∈ strings_Fields line → f ≠ "") →
  listConnectedDevices st = (Ok devices, st') →
  Forall (λ d, Serial d ≠ "") devices.
Proof.
  intros Hfields Hrun. apply Forall_forall. intros d Hd.
  destruct (listed_serial_from_fields st st' devices d Hrun Hd) as [line Hin].
  by eapply Hfields.
Qed.

(** X14. The way [main] composes them, the nil command cannot be reached:
    a serial chosen by [selectDevice] among the devices returned by
    [listConnectedDevices] is not empty, so [downloadAndPushBeatmap] never
    panics with it and the sync loop runs to the end of any list. *)
Theorem nil_command_unreachable `{Text} {W : Type} `{OS W} `{Adb W}
    (st st1 st2 : St W) (devices : list Device) (serial : string) :
  (∀ line f, f ∈ strings_Fields line → f ≠ "") →
  listConnectedDevices st = (Ok devices, st1) →
  fst (selectDevice devices st2) = Ok serial →
  serial ≠ "" ∧
  (∀ b remoteDir st3, fst (downloadAndPushBeatmap b serial remoteDir st3) ≠ Panic) ∧
  (∀ missing st3, fst (Main.syncLoop missing serial st3) = Main.Completed).
Proof.
  intros Hfields Hrun Hsel.
  assert (Hs : serial ≠ "").
  { destruct (selectDevice_Ok_elem devices st2 serial Hsel) as (d & Hd & <-).
    destruct (listed_serial_from_fields st st1 devices d Hrun Hd) as [line Hin].
    by eapply Hfields. }
  split; [done|]. split.
  - intros b remoteDir st3 Hp. by apply panic_inv in Hp as [? _].
  - intros missing st3. by apply syncLoop_completes.
Qed.

Section DeviceExamples.
Local Existing Instance Sim.os.
Local Existing Instance SimAdb.text.
Local Existing Instance SimAdb.adb.

Lemma fieldsFrom_not_empty (s cur f : string) :
  f ∈ SimAdb.fieldsFrom cur s → f ≠ "".
Proof.
  revert cur. induction s as [|c s IH]; intros cur; simpl.
  - destruct (bool_decide (cur = "")) eqn:E; intros Hin.
    + by apply elem_of_nil in Hin.
    + apply list_elem_of_singleton in Hin as ->. by apply bool_decide_eq_false in E.
  - destruct (SimAdb.isSpace c); [|apply IH].
    intros [Hin|Hin]%elem_of_app; [|by eapply IH].
    destruct (bool_decide (cur = "")) eqn:E.
    + by apply elem_of_nil in Hin.
    + apply list_elem_of_singleton in Hin as ->. by apply bool_decide_eq_false in E.
Qed.

Example listConnectedDevices_sim :
  fst (listConnectedDevices (Sim.init []))
  = Ok [ {| Serial := "1WMHH000X"; Model := "Quest_2" |};
         {| Serial := "emulator-5554"; Model := "(unknown)" |} ].
Proof. vm_compute. reflexivity. Qed.

Lemma listed_devices_are_ready_witness :
  ∃ line rest,
    line ∈ (bufio_lines
              (exec_Output ["adb"; "devices"; "-l"] (world (Sim.init []))).1.1).1 ∧
    strings_HasPrefix line "List of devices" = false ∧
    strings_Fields line = "1WMHH000X" :: "device" :: rest ∧
    (("Quest_2" = "(unknown)" ∧
      Forall (λ f, strings_HasPrefix f "model:" = false) (strings_Fields line)) ∨
     ∃ pre f post,
       strings_Fields line = pre ++ f :: post ∧
       Forall (λ f, strings_HasPrefix f "model:" = false) pre ∧
       f = "model:" +:+ "Quest_2").
Proof.
  apply (listed_devices_are_ready (Sim.init []) (snd (listConnectedDevices (Sim.init [])))
           [ {| Serial := "1WMHH000X"; Model := "Quest_2" |};
             {| Serial := "emulator-5554"; Model := "(unknown)" |} ]
           {| Serial := "1WMHH000X"; Model := "Quest_2" |}).
  - vm_compute. reflexivity.
  - by left.
Defined.

Lemma listed_serials_not_empty_witness :
  Forall (λ d, Serial d ≠ "")
    [ {| Serial := "1WMHH000X"; Model := "Quest_2" |};
      {| Serial := "emulator-5554"; Model := "(unknown)" |} ].
Proof.
  apply (listed_serials_not_empty (Sim.init []) (snd (listConnectedDevices (Sim.init [])))).
  - intros line f. apply fieldsFrom_not_empty.
  - vm_compute. reflexivity.
Defined.

Lemma nil_command_unreachable_witness :
  "emulator-5554" ≠ "" ∧
  (∀ b remoteDir st3,
     fst (downloadAndPushBeatmap b "emulator-5554" remoteDir st3) ≠ Panic) ∧
  (∀ missing st3, fst (Main.syncLoop missing "emulator-5554" st3) = Main.Completed).
Proof.
  apply (nil_command_unreachable (Sim.init []) (snd (listConnectedDevices (Sim.init [])))
           (Sim.init [Some 2])
           [ {| Serial := "1WMHH000X"; Model := "Quest_2" |};
             {| Serial := "emulator-5554"; Model := "(unknown)" |} ]).
  - intros line f. apply fieldsFrom_not_empty.
  - vm_compute. reflexivity.
  - reflexivity.
Defined.

End DeviceExamples.

(** ** The listing of the songs folder *)

Lemma occurs_snoc (c d : Ascii.ascii) (s : string) :
  occurs c (s +:+ String.String d "") = occurs c s || bool_decide (d = c).
Proof.
  induction s as [|e s IH]; simpl.
  - by rewrite orb_false_r.
  - change (occurs c (String.String e (s +:+ String.String d ""))) with
      (bool_decide (e = c) || occurs c (s +:+ String.String d "")).
    by rewrite IH, orb_assoc.
Qed.

Lemma splitNewline_pieces (s cur : string) :
  occurs (Ascii.ascii_of_nat 10) cur = false →
  Forall (λ piece, occurs (Ascii.ascii_of_nat 10) piece = false) (splitNewline cur s).
Proof.
  revert cur. induction s as [|c s IH]; intros cur Hcur; simpl.
  - by constructor.
  - destruct (decide (c = Ascii.ascii_of_nat 10)) as [->|Hc].
    + constructor; [done|]. by apply IH.
    + apply IH. rewrite occurs_snoc, Hcur. simpl. by apply bool_decide_eq_false.
Qed.

Section Folder.
Context `{Text} {W : Type} `{OS W} `{Adb W}.

(** The loop of [listDeviceFolder] keeps the lines that are not blank. *)
Lemma nonEmptyLines_filter (lines acc : list string) :
  foldl (λ nonEmptyLines line,
           if bool_decide (strings_TrimSpace line ≠ "")
           then nonEmptyLines ++ [line] else nonEmptyLines) acc lines
  = acc ++ filter (λ line, strings_TrimSpace line ≠ "") lines.
Proof.
  revert acc. induction lines as [|line lines IH]; intros acc; simpl.
  - by rewrite app_nil_r.
  - rewrite IH, filter_cons.
    destruct (decide (strings_TrimSpace line ≠ "")) as [Hl|Hl].
    + rewrite bool_decide_true by done. by rewrite <- app_assoc.
    + by rewrite bool_decide_false by done.
Qed.

Lemma listDeviceFolder_run (folderPath serial : string) (p : Proc W) :
  listDeviceFolder folderPath serial p
  = let args := ["adb"; "-s"; serial; "shell"; "ls"; folderPath] in
    let '((output, err), w) := exec_Output args (pworld p) in
    match err with
    | Some e =>
        ([], {| pworld := w;
                plog := plog p ++ [Sys (Call (Exec args)); Say (ErrorListing folderPath e)] |})
    | None =>
        (filter (λ line, strings_TrimSpace line ≠ "") (splitNewline "" output),
         {| pworld := w; plog := plog p ++ [Sys (Call (Exec args))] |})
    end.
Proof.
  unfold listDeviceFolder, pbind, lift, call, say, pret. simpl.
  destruct (exec_Output _ _) as [[output [e|]] w]; simpl.
  - by rewrite <- app_assoc.
  - by rewrite nonEmptyLines_filter.
Qed.

End Folder.

(** X15. When the [adb shell ls] command fails, [listDeviceFolder] prints
    the error and returns no file at all, as for an empty folder; when it
    succeeds it prints nothing.  Either way it runs that one command. *)
Theorem listDeviceFolder_failure `{Text} {W : Type} `{OS W} `{Adb W}
    (folderPath serial : string) (p : Proc W) :
  let args := ["adb"; "-s"; serial; "shell"; "ls"; folderPath] in
  let r := exec_Output args (pworld p) in
  (∀ e, r.1.2 = Some e →
     listDeviceFolder folderPath serial p
     = ([], {| pworld := r.2;
               plog := plog p ++ [Sys (Call (Exec args)); Say (ErrorListing folderPath e)] |})) ∧
  (r.1.2 = None →
     snd (listDeviceFolder folderPath serial p)
     = {| pworld := r.2; plog := plog p ++ [Sys (Call (Exec args))] |}).
Proof.
  intros args r. subst args r. rewrite listDeviceFolder_run. cbv zeta.
  destruct (exec_Output _ _) as [[output [e|]] w]; simpl.
  - split; [by intros ? [= <-] | done].
  - split; [done | done].
Qed.

(** X16. The names that [listDeviceFolder] returns are exactly the pieces
    of the command's output between newlines that are not blank (not
    empty once [strings.TrimSpace] has been applied), in their order and
    as they stand: nothing is trimmed off them, and a failed command gives
    no name.  So every name is non-blank, none contains a newline, and none
    is empty. *)
Theorem listDeviceFolder_names `{Text} {W : Type} `{OS W} `{Adb W}
    (folderPath serial : string) (p : Proc W) :
  strings_TrimSpace "" = "" →
  let files := fst (listDeviceFolder folderPath serial p) in
  let r := exec_Output ["adb"; "-s"; serial; "shell"; "ls"; folderPath] (pworld p) in
  files = match r.1.2 with
          | Some _ => []
          | None => filter (λ line, strings_TrimSpace line ≠ "") (splitNewline "" r.1.1)
          end ∧
  Forall (λ name, strings_TrimSpace name ≠ "" ∧
                  occurs (Ascii.ascii_of_nat 10) name = false ∧ name ≠ "") files.
Proof.
  intros Hblank files r. subst files r.
  rewrite listDeviceFolder_run. cbv zeta.
  destruct (exec_Output _ _) as [[output [e|]] w]; simpl.
  - split; [done | constructor].
  - split; [done|].
    apply Forall_forall. intros name [Hname Hin]%list_elem_of_filter.
    split; [done|]. split; [|by intros ->].
    pose proof (splitNewline_pieces output "" eq_refl) as Hall.
    rewrite Forall_forall in Hall. by apply Hall.
Qed.

(** ** The program as a whole *)

Lemma downloads_app (l1 l2 : list main_event) :
  downloads (l1 ++ l2) = downloads l1 ++ downloads l2.
Proof. apply omap_app. Qed.

Lemma downloads_Sys (t : list event) : downloads (Sys <$> t) = requests t.
Proof.
  unfold downloads, requests. induction t as [|e t IH]; [done|].
  simpl. destruct e as [[]|]; simpl; try f_equal; exact IH.
Qed.

Lemma downloads_Say (ls : list main_line) : downloads (Say <$> ls) = [].
Proof. unfold downloads. induction ls as [|l ls IH]; [done|]. simpl. exact IH. Qed.

Lemma requests_printed (t : list event) :
  Forall (λ e, ∃ l, e = Printed l) t → requests t = [].
Proof.
  unfold requests. induction 1 as [|e t [l ->] _ IH]; [done|]. simpl. exact IH.
Qed.

Lemma requests_menu (devices : list Device) : requests (menu devices) = [].
Proof.
  apply requests_printed, Forall_forall. intros e Hin.
  apply elem_of_lookup_imap in Hin as (k & d & -> & _). by eexists.
Qed.

Lemma missing_nothing_listed (allPages : list BeatmapPage) :
  Main.missing [] allPages = entries allPages.
Proof.
  rewrite missing_filter. induction (entries allPages) as [|b l IH]; [done|].
  rewrite filter_cons_True; [by rewrite IH|]. unfold absent. apply not_elem_of_nil.
Qed.

Section ProgramFacts.
Context `{Text} `{CatalogServer} {W : Type} `{OS W} `{Adb W}.

Lemma quiet_bind {A B} (m : P W A) (k : A → P W B) :
  quiet m → (∀ a, quiet (k a)) → quiet (pbind m k).
Proof.
  intros Hm Hk p. unfold pbind. specialize (Hm p).
  destruct (m p) as [a p']. simpl in Hm. by rewrite Hk.
Qed.

Lemma quiet_pret {A} (a : A) : quiet (W := W) (pret a).
Proof. by intros p. Qed.

Lemma quiet_say (l : main_line) : quiet (W := W) (say l).
Proof. intros p. unfold say. simpl. by rewrite downloads_app, app_nil_r. Qed.

Lemma quiet_lift {A} (m : M W A) :
  (∀ w, requests (trace (snd (m {| world := w; trace := [] |}))) = []) →
  quiet (lift m).
Proof.
  intros Hm p. unfold lift. specialize (Hm (pworld p)).
  destruct (m _) as [a st]. simpl in *.
  by rewrite downloads_app, downloads_Sys, Hm, app_nil_r.
Qed.

Lemma quiet_isAdbServerRunning : quiet isAdbServerRunning.
Proof.
  intros p. unfold isAdbServerRunning.
  destruct (net_DialTimeout _ _) as [[] w]; simpl;
    by rewrite downloads_app, app_nil_r.
Qed.

Lemma quiet_startAdbServer : quiet startAdbServer.
Proof.
  unfold startAdbServer. apply quiet_bind.
  - apply quiet_lift. intros w. unfold call. simpl.
    by destruct (exec_CombinedOutput _ _).
  - intros [output [err|]]; [|apply quiet_say].
    apply quiet_bind; [apply quiet_say|]. intros _. apply quiet_say.
Qed.

Lemma quiet_listConnectedDevices : quiet (lift listConnectedDevices).
Proof.
  apply quiet_lift. intros w. rewrite listConnectedDevices_run. cbv zeta.
  by destruct (exec_Output _ _) as [[output err] w'].
Qed.

Lemma quiet_selectDevice (devices : list Device) : quiet (lift (selectDevice devices)).
Proof.
  apply quiet_lift. intros w. destruct devices as [|d ds]; [done|].
  rewrite selectDevice_run by done. cbn [trace].
  unfold requests. rewrite !omap_app. fold (requests (menu (d :: ds))).
  by rewrite requests_menu.
Qed.

Lemma quiet_listDeviceFolder (folderPath serial : string) :
  quiet (listDeviceFolder folderPath serial).
Proof.
  intros p. rewrite listDeviceFolder_run. cbv zeta.
  destruct (exec_Output _ _) as [[output [e|]] w]; simpl;
    by rewrite downloads_app, app_nil_r.
Qed.

Lemma quiet_mainSetup : quiet mainSetup.
Proof.
  unfold mainSetup.
  apply quiet_bind; [apply quiet_isAdbServerRunning|]. intros running.
  apply quiet_bind;
    [destruct running; [apply quiet_say | apply quiet_startAdbServer]|]. intros _.
  apply quiet_bind; [apply quiet_listConnectedDevices|]. intros [devices|err|].
  - apply quiet_bind; [apply quiet_selectDevice|]. intros [serial|e|].
    + apply quiet_bind; [apply quiet_say|]. intros _.
      apply quiet_bind; [apply quiet_listDeviceFolder|]. intros files.
      apply quiet_bind; [apply quiet_say|]. intros _. apply quiet_pret.
    + apply quiet_bind; [apply quiet_say|]. intros _. apply quiet_pret.
    + apply quiet_pret.
  - apply quiet_bind; [apply quiet_say|]. intros _. apply quiet_pret.
  - apply quiet_pret.
Qed.

(** What [lift] makes of a run of one of the functions. *)
Lemma lift_run {A} (m : M W A) (p : Proc W) :
  lift m p
  = (fst (m {| world := pworld p; trace := [] |}),
     {| pworld := world (snd (m {| world := pworld p; trace := [] |}));
        plog := plog p ++ (Sys <$> trace (snd (m {| world := pworld p; trace := [] |}))) |}).
Proof. unfold lift. by destruct (m _) as [a st]. Qed.

(** [mainSetup] does not panic, and the serial it hands on is not empty. *)
Lemma mainSetup_result (p : Proc W) :
  (∀ line f, f ∈ strings_Fields line → f ≠ "") →
  fst (mainSetup p) ≠ Panic ∧
  ∀ serial files, fst (mainSetup p) = Ok (serial, files) → serial ≠ "".
Proof.
  intros Hfields. unfold mainSetup, pbind.
  destruct (isAdbServerRunning p) as [running p1].
  destruct ((if running then say AdbAlreadyRunning else startAdbServer) p1) as [[] p2].
  rewrite lift_run.
  destruct (listConnectedDevices _) as [r st3] eqn:Hlist. simpl.
  destruct r as [devices|err|]; simpl; [|split; [congruence | intros ? ? [=]]|].
  2: { exfalso. rewrite listConnectedDevices_run in Hlist. cbv zeta in Hlist.
       destruct (exec_Output _ _) as [[output [e|]] w]; simpl in Hlist; [congruence|].
       destruct (bufio_lines output) as [lines [e|]]; simpl in Hlist; congruence. }
  rewrite lift_run. simpl.
  pose proof (selectDevice_cases devices {| world := world st3; trace := [] |}) as Hcases.
  pose proof (selectDevice_Ok_elem devices {| world := world st3; trace := [] |}) as Helem.
  destruct (selectDevice devices _) as [r4 st5]. simpl in *.
  destruct r4 as [serial|e|]; simpl; [|split; [congruence | intros ? ? [=]]|].
  - destruct (listDeviceFolder _ serial _) as [files p5]. simpl.
    split; [done|]. intros ? ? [= <- <-].
    destruct (Helem serial eq_refl) as (d & Hd & <-).
    destruct (listed_serial_from_fields _ _ _ d Hlist Hd) as [line Hin].
    by eapply Hfields.
  - exfalso. destruct (Z.of_nat (length devices) =? 0); [done|].
    destruct (fst (fmt_Scanf_d (world st3))) as [c|]; [|done].
    destruct ((c <? 1) || (Z.of_nat (length devices) <? c)) eqn:Erange; [done|].
    destruct (slice_at_in_range devices (c - 1)) as (d & Hd & _); [lia|].
    by rewrite Hd in Hcases.
Qed.

(** When [mainSetup] returns, the last line of the log is the error. *)
Lemma mainSetup_early (p : Proc W) :
  fst (mainSetup p) = Err tt →
  (∃ err, last (plog (snd (mainSetup p))) = Some (Say (ErrorLine err))) ∨
  (∃ e, last (plog (snd (mainSetup p))) = Some (Say (ErrorSelecting e))).
Proof.
  unfold mainSetup, pbind.
  destruct (isAdbServerRunning p) as [running p1].
  destruct ((if running then say AdbAlreadyRunning else startAdbServer) p1) as [[] p2].
  destruct (lift listConnectedDevices p2) as [[devices|err|] p3]; simpl; [| |done].
  - destruct (lift (selectDevice devices) p3) as [[serial|e|] p4]; simpl; [| |done].
    + by destruct (listDeviceFolder _ serial _) as [files p5].
    + intros _. right. exists e. apply last_snoc.
  - intros _. left. exists err. apply last_snoc.
Qed.

Lemma syncLoop_requests (missing : list Beatmap) (serial : string) (st : St W) :
  fst (Main.syncLoop missing serial st) = Main.Completed →
  requests (trace (snd (Main.syncLoop missing serial st)))
  = requests (trace st) ++ (fullURL <$> missing).
Proof.
  revert st. induction missing as [|bm rest IH]; intros st.
  - simpl. by rewrite app_nil_r.
  - pose proof (requests_run bm serial Main.remoteDir st) as Hreq.
    cbn [Main.syncLoop]. unfold bind at 1 3.
    destruct (downloadAndPushBeatmap bm serial Main.remoteDir st) as [r st'].
    simpl in Hreq. rewrite fmap_cons.
    destruct r as [[]|e|]; [| |done].
    + intros Hc. by rewrite (IH _ Hc), Hreq, <- app_assoc.
    + unfold bind, print, emit. simpl. intros Hc. rewrite (IH _ Hc). simpl.
      by rewrite requests_snoc, app_nil_r, Hreq, <- app_assoc.
Qed.

End ProgramFacts.

Section WholeProgram.
Context `{Text} `{CatalogServer} {W : Type} `{OS W} `{Adb W}.

(** [mainSync], outcome by outcome. *)
Lemma mainSync_run (sched : list choice) (serial : string) (files : list string)
    (p : Proc W) :
  mainSync sched serial files p
  = match fetchPage 1 with
    | LogFatal f => (Exit f, p)
    | Return firstPage =>
        match run (PageCount firstPage) sched (start (PageCount firstPage)) with
        | Running _ => (Pending, p)
        | Exited f => (Exit f, p)
        | Panicked => (Crashed, p)
        | Returned allPages =>
            let missing := Main.missing files allPages in
            let r := Main.syncLoop missing serial {| world := pworld p; trace := [] |} in
            (match fst r with Main.Completed => Finished | Main.Aborted => Crashed end,
             {| pworld := world (snd r);
                plog := plog p
                        ++ [Say ExecutionTime]
                        ++ (Say <$> ((λ page, ProcessedPage (Page page)
                                                (Z.of_nat (length (Data page))))
                                     <$> allPages))
                        ++ (Say <$> report missing)
                        ++ (Sys <$> trace (snd r)) |})
        end
    end.
Proof.
  unfold mainSync. destruct (fetchPage 1) as [firstPage|f]; [|done].
  destruct (run _ _ _) as [s|allPages|f|]; try done.
  unfold pbind, say, sayAll. rewrite lift_run. simpl.
  destruct (Main.syncLoop _ _ _) as [[] st']; simpl; by rewrite <- !app_assoc.
Qed.

End WholeProgram.

(** X17. When [main] returns early, the last line it has printed is the
    error of the device listing or of the device selection; it has
    requested no beatmap, and it has done nothing after the setup: neither
    the catalog nor the schedule of the fetch plays a part. *)
Theorem main_returns_early `{Text} `{CatalogServer} {W : Type} `{OS W} `{Adb W}
    (sched : list choice) (p : Proc W) :
  fst (main sched p) = ReturnedEarly →
  ((∃ err, last (plog (snd (main sched p))) = Some (Say (ErrorLine err))) ∨
   (∃ e, last (plog (snd (main sched p))) = Some (Say (ErrorSelecting e)))) ∧
  downloads (plog (snd (main sched p))) = downloads (plog p) ∧
  snd (main sched p) = snd (mainSetup p).
Proof.
  pose proof (mainSetup_early p) as Hearly.
  pose proof (quiet_mainSetup p) as Hquiet.
  unfold main, pbind. destruct (mainSetup p) as [[[serial files]|[]|] p1]; simpl in *.
  - rewrite mainSync_run. destruct (fetchPage 1) as [firstPage|f]; [|done].
    destruct (run _ _ _) as [s|allPages|f|]; try done. cbv zeta.
    by destruct (fst (Main.syncLoop _ _ _)).
  - intros _. split; [by apply Hearly|done].
  - done.
Qed.

(** X18. When [main] runs to its end, the beatmaps it has requested are
    exactly the catalog entries missing from the files that the setup has
    listed, in the order of the missing list, for pages that the
    concurrent fetch has returned. *)
Theorem main_downloads_the_missing `{Text} `{CatalogServer} {W : Type} `{OS W} `{Adb W}
    (sched : list choice) (p : Proc W) :
  fst (main sched p) = Finished →
  ∃ serial files firstPage allPages,
    fst (mainSetup p) = Ok (serial, files) ∧
    fetchPage 1 = Return firstPage ∧
    fetchAllPagesConcurrently (PageCount firstPage) allPages ∧
    downloads (plog (snd (main sched p)))
    = downloads (plog p) ++ (fullURL <$> Main.missing files allPages).
Proof.
  pose proof (quiet_mainSetup p) as Hquiet.
  unfold main, pbind. destruct (mainSetup p) as [[[serial files]|[]|] p1]; simpl in *;
    [|done|done].
  rewrite mainSync_run. destruct (fetchPage 1) as [firstPage|f] eqn:Hfirst; [|done].
  pose proof (run_reaches (PageCount firstPage) sched (start (PageCount firstPage)))
    as Hreach.
  destruct (run _ _ _) as [s|allPages|f|]; try done. cbv zeta.
  pose proof (syncLoop_requests (Main.missing files allPages) serial
                {| world := pworld p1; trace := [] |}) as Hreq.
  destruct (fst (Main.syncLoop _ _ _)); [|done]. intros _.
  exists serial, files, firstPage, allPages. split; [done|]. split; [done|].
  split; [done|]. cbn [snd plog].
  rewrite !downloads_app, !downloads_Say, downloads_Sys, Hreq, Hquiet by done.
  done.
Qed.

(** X19. When the process exits, a fetch of a catalog page has failed, and
    nothing has been done since the setup: no page has been reported, no
    beatmap requested and nothing pushed. *)
Theorem main_exit_leaves_device_alone `{Text} `{CatalogServer} {W : Type} `{OS W} `{Adb W}
    (sched : list choice) (p : Proc W) (f : fatal) :
  fst (main sched p) = Exit f →
  (∃ page, fetchPage page = LogFatal f) ∧
  snd (main sched p) = snd (mainSetup p).
Proof.
  unfold main, pbind. destruct (mainSetup p) as [[[serial files]|[]|] p1]; simpl;
    [|done|done].
  rewrite mainSync_run. destruct (fetchPage 1) as [firstPage|f'] eqn:Hfirst.
  2: { intros [= <-]. split; [by exists 1 | done]. }
  pose proof (run_reaches (PageCount firstPage) sched (start (PageCount firstPage)))
    as Hreach.
  destruct (run _ _ _) as [s|allPages|f'|]; try done.
  - cbv zeta. by destruct (fst (Main.syncLoop _ _ _)).
  - intros [= <-]. split; [|done].
    destruct (reaches_exited _ _ _ f' Hreach eq_refl) as [Hstart|?]; [|done].
    unfold start in Hstart. by destruct (makechan_ok _).
Qed.

(** X20. [main] never panics at the nil command or at an index: the only
    crashes left are those of the concurrent fetch on a page count that is
    out of range, where [make] panics (a negative count, or a buffer too
    large to allocate) or [wg.Add] does (more goroutines than the counter
    can count).  The first page then reports a page count that is negative
    or above [2^31 - 1], and nothing has been done since the setup. *)
Theorem main_crashes_only_on_bad_count
    `{Text} `{CatalogServer} {W : Type} `{OS W} `{Adb W}
    (sched : list choice) (p : Proc W) :
  (∀ line f, f ∈ strings_Fields line → f ≠ "") →
  fst (main sched p) = Crashed →
  ∃ firstPage,
    fetchPage 1 = Return firstPage ∧
    (PageCount firstPage < 0 ∨ int32_max < PageCount firstPage) ∧
    snd (main sched p) = snd (mainSetup p).
Proof.
  intros Hfields.
  destruct (mainSetup_result p Hfields) as [Hpanic Hserial].
  unfold main, pbind. destruct (mainSetup p) as [[[serial files]|[]|] p1]; simpl in *;
    [|done|done].
  specialize (Hserial serial files eq_refl).
  rewrite mainSync_run. destruct (fetchPage 1) as [firstPage|f'] eqn:Hfirst; [|done].
  pose proof (run_reaches (PageCount firstPage) sched (start (PageCount firstPage)))
    as Hreach.
  destruct (run _ _ _) as [s|allPages|f'|]; try done.
  - cbv zeta.
    pose proof (syncLoop_completes (Main.missing files allPages) serial
                  {| world := pworld p1; trace := [] |} Hserial) as [Hc _].
    by rewrite Hc.
  - intros _. exists firstPage. split; [done|]. split; [|done].
    by apply reaches_panicked.
Qed.

(** X21. With no file listed on the device (the folder is empty, or its
    listing has failed) every entry of the catalog pages counts as
    missing: a run that reaches its end has requested them all, in the
    order of the pages returned. *)
Theorem nothing_listed_downloads_all `{Text} `{CatalogServer} {W : Type} `{OS W} `{Adb W}
    (sched : list choice) (serial : string) (p : Proc W) :
  fst (mainSync sched serial [] p) = Finished →
  ∃ firstPage allPages,
    fetchPage 1 = Return firstPage ∧
    fetchAllPagesConcurrently (PageCount firstPage) allPages ∧
    downloads (plog (snd (mainSync sched serial [] p)))
    = downloads (plog p) ++ (fullURL <$> entries allPages).
Proof.
  rewrite mainSync_run. destruct (fetchPage 1) as [firstPage|f] eqn:Hfirst; [|done].
  pose proof (run_reaches (PageCount firstPage) sched (start (PageCount firstPage)))
    as Hreach.
  destruct (run _ _ _) as [s|allPages|f|]; try done. cbv zeta.
  rewrite missing_nothing_listed.
  pose proof (syncLoop_requests (entries allPages) serial
                {| world := pworld p; trace := [] |}) as Hreq.
  destruct (fst (Main.syncLoop _ _ _)); [|done]. intros _.
  exists firstPage, allPages. split; [done|]. split; [done|]. cbn [snd plog].
  by rewrite !downloads_app, !downloads_Say, downloads_Sys, Hreq.
Qed.

(** ** The program at work in the simulated world *)

Section ProgramExamples.
Local Existing Instance Sim.os.
Local Existing Instance SimAdb.text.
Local Existing Instance SimAdb.adb.
Local Existing Instance SimAdb.catalog.

(** The bridge is started, the second device is chosen, the folder holds
    [b.synth]; [gone.synth] cannot be downloaded and [c.synth] is pushed. *)
Example main_sim :
  fst (main SimAdb.inOrder (SimAdb.boot [Some 2])) = Finished ∧
  downloads (plog (snd (main SimAdb.inOrder (SimAdb.boot [Some 2]))))
  = ["https://synthriderz.com/dl/gone"; "https://synthriderz.com/dl/c"] ∧
  executed (plog (snd (main SimAdb.inOrder (SimAdb.boot [Some 2]))))
  = [ ["adb"; "start-server"];
      ["adb"; "devices"; "-l"];
      ["adb"; "-s"; "emulator-5554"; "shell"; "ls"; "/sdcard/SynthRidersUC/CustomSongs/"];
      ["adb"; "-s"; "emulator-5554"; "push"; "/tmp/c.synth";
       "/sdcard/SynthRidersUC/CustomSongs/"] ].
Proof. vm_compute. done. Qed.

Lemma listDeviceFolder_names_witness :
  fst (listDeviceFolder "/sdcard/SynthRidersUC/CustomSongs/" "emulator-5554"
         (SimAdb.boot []))
  = filter (λ line, strings_TrimSpace line ≠ "") (splitNewline "" SimAdb.folderOutput) ∧
  Forall (λ name, strings_TrimSpace name ≠ "" ∧
                  occurs (Ascii.ascii_of_nat 10) name = false ∧ name ≠ "")
    (fst (listDeviceFolder "/sdcard/SynthRidersUC/CustomSongs/" "emulator-5554"
            (SimAdb.boot []))).
Proof.
  destruct (listDeviceFolder_names "/sdcard/SynthRidersUC/CustomSongs/" "emulator-5554"
              (SimAdb.boot [])) as (Heq & Hall).
  - reflexivity.
  - split; [exact Heq | exact Hall].
Defined.

Lemma main_returns_early_witness :
  ((∃ err, last (plog (snd (main SimAdb.inOrder (SimAdb.boot [Some 7]))))
           = Some (Say (ErrorLine err))) ∨
   (∃ e, last (plog (snd (main SimAdb.inOrder (SimAdb.boot [Some 7]))))
         = Some (Say (ErrorSelecting e)))) ∧
  downloads (plog (snd (main SimAdb.inOrder (SimAdb.boot [Some 7]))))
  = downloads (plog (SimAdb.boot [Some 7])) ∧
  snd (main SimAdb.inOrder (SimAdb.boot [Some 7])) = snd (mainSetup (SimAdb.boot [Some 7])).
Proof.
  apply (main_returns_early SimAdb.inOrder (SimAdb.boot [Some 7])).
  vm_compute. reflexivity.
Defined.

Lemma main_downloads_the_missing_witness :
  ∃ serial files firstPage allPages,
    fst (mainSetup (SimAdb.boot [Some 2])) = Ok (serial, files) ∧
    fetchPage 1 = Return firstPage ∧
    fetchAllPagesConcurrently (PageCount firstPage) allPages ∧
    downloads (plog (snd (main SimAdb.inOrder (SimAdb.boot [Some 2]))))
    = downloads (plog (SimAdb.boot [Some 2])) ++ (fullURL <$> Main.missing files allPages).
Proof.
  apply (main_downloads_the_missing SimAdb.inOrder (SimAdb.boot [Some 2])).
  vm_compute. reflexivity.
Defined.

Lemma nothing_listed_downloads_all_witness :
  ∃ firstPage allPages,
    fetchPage 1 = Return firstPage ∧
    fetchAllPagesConcurrently (PageCount firstPage) allPages ∧
    downloads (plog (snd (mainSync SimAdb.inOrder "emulator-5554" [] (SimAdb.boot []))))
    = downloads (plog (SimAdb.boot [])) ++ (fullURL <$> entries allPages).
Proof.
  apply (nothing_listed_downloads_all SimAdb.inOrder "emulator-5554" (SimAdb.boot [])).
  vm_compute. reflexivity.
Defined.

End ProgramExamples.

Section ProgramFailures.
Local Existing Instance Sim.os.
Local Existing Instance SimAdb.text.
Local Existing Instance SimAdb.adb.

Lemma main_exit_leaves_device_alone_witness :
  (∃ page, @fetchPage Sim.server page = LogFatal (DecodeFailed 3 "invalid character")) ∧
  snd (@main _ Sim.server _ _ _
         [MainThread; MainThread; MainThread; Go 2] (SimAdb.boot [Some 2]))
  = snd (mainSetup (SimAdb.boot [Some 2])).
Proof.
  apply (@main_exit_leaves_device_alone _ Sim.server _ _ _
           [MainThread; MainThread; MainThread; Go 2] (SimAdb.boot [Some 2])).
  vm_compute. reflexivity.
Defined.

Lemma main_crashes_only_on_bad_count_witness :
  ∃ firstPage,
    @fetchPage SimAdb.broken 1 = Return firstPage ∧
    (PageCount firstPage < 0 ∨ int32_max < PageCount firstPage) ∧
    snd (@main _ SimAdb.broken _ _ _ [] (SimAdb.boot [Some 1]))
    = snd (mainSetup (SimAdb.boot [Some 1])).
Proof.
  apply (@main_crashes_only_on_bad_count _ SimAdb.broken _ _ _ [] (SimAdb.boot [Some 1])).
  - intros line f. apply fieldsFrom_not_empty.
  - vm_compute. reflexivity.
Defined.

End ProgramFailures.

(** ** Reconciliation and the order of the pages *)

Lemma entries_Permutation (pages pages' : list BeatmapPage) :
  pages ≡ₚ pages' → entries pages ≡ₚ entries pages'.
Proof.
  unfold entries. induction 1 as [|x l l' _ IH|x y l|l l' l'' _ IH1 _ IH2].
  - done.
  - rewrite !fmap_cons. cbn [concat]. by apply Permutation_app_head.
  - rewrite !fmap_cons. cbn [concat]. rewrite !app_assoc.
    apply Permutation_app_tail, Permutation_app_comm.
  - by etrans.
Qed.

Lemma filter_sublist_weaken {A} (P Q : A → Prop)
    `{∀ x, Decision (P x)} `{∀ x, Decision (Q x)} (l : list A) :
  (∀ x, P x → Q x) → filter P l `sublist_of` filter Q l.
Proof.
  intros HPQ. induction l as [|x l IH]; [done|].
  rewrite !filter_cons. destruct (decide (P x)) as [HP|HP].
  - rewrite decide_True by auto. by apply sublist_skip.
  - destruct (decide (Q x)); [by apply sublist_cons | done].
Qed.

(** X22. The missing list does not depend on the order in which the pages
    arrive, up to the order of its own elements: permuted pages give a
    permuted missing list.  So whatever the schedule of the concurrent
    fetch, the beatmaps found missing are those found missing in the pages
    taken in the order of their numbers. *)
Theorem missing_whatever_the_order `{CatalogServer}
    (files : list string) (N : Z) (pages allPages : list BeatmapPage) :
  0 ≤ N < int_max →
  fetched N pages →
  fetchAllPagesConcurrently N allPages →
  Main.missing files allPages ≡ₚ Main.missing files pages ∧
  (∀ other, other ≡ₚ pages → Main.missing files other ≡ₚ Main.missing files pages).
Proof.
  intros HN Hf Hret.
  assert (Hperm : ∀ other, other ≡ₚ pages →
                    Main.missing files other ≡ₚ Main.missing files pages).
  { intros other Hother. rewrite !missing_filter.
    by apply filter_Permutation, entries_Permutation. }
  split; [|done]. apply Hperm. by eapply fetchAll_Permutation.
Qed.

(** X23. More files on the device never add to the missing list: when
    every file of one listing is in another, the missing list for the
    larger listing is a subsequence of the one for the smaller, and in any
    case the missing list is a subsequence of the catalog entries. *)
Theorem missing_shrinks_with_files (files files' : list string)
    (allPages : list BeatmapPage) :
  (∀ f, f ∈ files → f ∈ files') →
  Main.missing files' allPages `sublist_of` Main.missing files allPages ∧
  Main.missing files allPages `sublist_of` entries allPages ∧
  (length (Main.missing files allPages) ≤ length (entries allPages))%nat.
Proof.
  intros Hsub. rewrite !missing_filter. split; [|split].
  - apply filter_sublist_weaken. unfold absent. intros b Hb Hin. by apply Hb, Hsub.
  - apply sublist_filter.
  - apply sublist_length, sublist_filter.
Qed.

Section OrderExamples.
Local Existing Instance SimAdb.catalog.

Lemma missing_whatever_the_order_witness :
  Main.missing ["b.synth"] [SimAdb.page2; SimAdb.page1]
  ≡ₚ Main.missing ["b.synth"] [SimAdb.page1; SimAdb.page2].
Proof.
  refine (proj1 (missing_whatever_the_order ["b.synth"] 2
                   [SimAdb.page1; SimAdb.page2] [SimAdb.page2; SimAdb.page1] _ _ _)).
  - unfold int_max. lia.
  - unfold fetched. change (seqZ 1 2) with [1; 2].
    repeat (apply Forall2_cons; split; [reflexivity|]). apply Forall2_nil_2.
  - unfold fetchAllPagesConcurrently.
    assert (E : run 2 [MainThread; MainThread; Go 1; Go 1; Go 1; Go 0; Go 0; Go 0; MainThread]
                     (start 2)
                = Returned [SimAdb.page2; SimAdb.page1]) by (vm_compute; reflexivity).
    rewrite <- E. apply run_reaches.
Defined.

Lemma missing_shrinks_with_files_witness :
  Main.missing ["b.synth"; "c.synth"] [SimAdb.page1; SimAdb.page2]
    `sublist_of` Main.missing ["c.synth"] [SimAdb.page1; SimAdb.page2].
Proof.
  refine (proj1 (missing_shrinks_with_files ["c.synth"] ["b.synth"; "c.synth"]
                   [SimAdb.page1; SimAdb.page2] _)).
  intros f Hf. by right.
Defined.

End OrderExamples.

(** ** The probe of the bridge *)


Section Probe.
Context `{Text} {W : Type} `{OS W} `{Adb W}.









End Probe.

